(** * itu_obs_pull.py: a shallow embedding of the schedule extractor

    The program drives a browser over a list of course codes, reads one
    result table per code, turns every table row into a record, spreads
    the codes over several independent browser sessions and finally sorts
    all records by (Kod, CRN).

    Modelling conventions.
    - A Python [str] is a list of Unicode code points ([N]).
    - A dictionary with the eleven fixed keys of [ders_entry] is a record.
    - The browser is an interface ([Browser]) whose operations return a
      value or raise; the program text between two browser calls is pure.
    - [time.sleep] has no effect on any value and is left out.
    - Each worker thread owns its driver, so a parallel run is a family of
      independent sequential runs plus a completion order. *)

From Stdlib Require Import NArith String Ascii Permutation Sorted Lia.
From stdpp Require Import base list sorting.

Set Default Proof Using "Type".
Local Open Scope N_scope.
Local Open Scope nat_scope.
Local Open Scope list_scope.

(** ** Text: Python strings *)

Module Text.

Definition char := N.
Definition str := list char.

(** An ASCII literal as a sequence of code points. *)
Fixpoint lit (s : string) : str :=
  match s with
  | EmptyString => []
  | String a s' => N_of_ascii a :: lit s'
  end.

(** [str.isspace] on one code point: the characters CPython treats as
    whitespace (what [str.strip()] removes). *)
Definition isspace (c : char) : bool :=
  ((9 <=? c) && (c <=? 13)
   || (28 <=? c) && (c <=? 32)
   || (c =? 133) || (c =? 160) || (c =? 5760)
   || (8192 <=? c) && (c <=? 8202)
   || (c =? 8232) || (c =? 8233) || (c =? 8239) || (c =? 8287)
   || (c =? 12288))%N.

Definition newline : char := 10%N.

Fixpoint lstrip (s : str) : str :=
  match s with
  | [] => []
  | c :: s' => if isspace c then lstrip s' else s
  end.

Definition rstrip (s : str) : str := reverse (lstrip (reverse s)).

(** [s.strip()] *)
Definition strip (s : str) : str := rstrip (lstrip s).

(** [s.replace(old, new)] for a one-character [old]. *)
Fixpoint replace (old : char) (new : str) (s : str) : str :=
  match s with
  | [] => []
  | c :: s' =>
      (if (c =? old)%N then new else [c]) ++ replace old new s'
  end.

(** [clean_text], line 43. *)
Definition clean_text (text : str) : str :=
  replace newline (lit " / ") (strip text).

(** Comparison of two strings, code point by code point, as [<] and [==]
    on [str] do; a proper prefix is smaller. *)
Fixpoint compare (a b : str) : comparison :=
  match a, b with
  | [], [] => Eq
  | [], _ :: _ => Lt
  | _ :: _, [] => Gt
  | x :: a', y :: b' =>
      match (x ?= y)%N with
      | Eq => compare a' b'
      | c => c
      end
  end.

Definition ltb (a b : str) : bool :=
  match compare a b with Lt => true | _ => false end.

End Text.

Import Text.

(** ** Rows: from table cells to records *)

Module Rows.

(** The dictionary built at lines 105-117, one field per key. *)
Record ders_entry := {
  Kod : str;
  Ders : str;
  Ogretim_Yontemi : str;
  Egitmen : str;
  Gun : str;
  Saat : str;
  Bina : str;
  Kayitli : str;
  Kontenjan : str;
  Bolum_Sinirlamasi : str;
  CRN : str
}.

#[export] Instance ders_entry_eq_dec : EqDecision ders_entry.
Proof. solve_decision. Defined.

(** A table row as the texts of its [td] cells, a table as its rows. *)
Definition row := list str.
Definition table := list row.

(** [cells[i].text]; every use is behind the 14-cell guard, so the
    index is in range there. *)
Definition cell (cells : row) (i : nat) : str := default [] (cells !! i).

Definition fiziksel_raw : str :=
  lit "Fiziksel (Y" ++ [252%N] ++ lit "z y" ++ [252%N] ++ lit "ze)".
Definition sanal_raw : str :=
  lit "Sanal (" ++ [199%N] ++ lit "evrimi" ++ [231%N] ++ lit "i/Online)".

(** Lines 99-103. *)
Definition map_ogretim_yontemi (cells : row) : str :=
  let ogretim_yontemi := clean_text (cell cells 3) in
  if decide (ogretim_yontemi = fiziksel_raw) then lit "Fiziksel"
  else if decide (ogretim_yontemi = sanal_raw) then lit "Online"
  else ogretim_yontemi.

(** Lines 99-117: the record of one row. *)
Definition make_entry (cells : row) : ders_entry :=
  {| Kod := clean_text (cell cells 1);
     Ders := clean_text (cell cells 2);
     Ogretim_Yontemi := map_ogretim_yontemi cells;
     Egitmen := clean_text (cell cells 4);
     Gun := clean_text (cell cells 6);
     Saat := clean_text (cell cells 7);
     Bina :=
       clean_text (cell cells 5) ++ lit " / " ++ clean_text (cell cells 8);
     Kayitli := clean_text (cell cells 10);
     Kontenjan := clean_text (cell cells 9);
     Bolum_Sinirlamasi := clean_text (cell cells 12);
     CRN := clean_text (cell cells 0) |}.

(** One turn of the loop at line 91: [continue] leaves [entries] as it
    is, otherwise the record is appended. *)
Definition row_step (excluded_codes : list str)
    (entries : list ders_entry) (cells : row) : list ders_entry :=
  if length cells <? 14 then entries
  else
    let ders_entry := make_entry cells in
    let ders_full_kod := Kod ders_entry in
    if decide (ders_full_kod ∈ excluded_codes) then entries
    else entries ++ [ders_entry].

(** Lines 90-124: [entries] after the loop over [rows[1:]]. *)
Definition table_entries (excluded_codes : list str) (rows : table)
  : list ders_entry :=
  fold_left (row_step excluded_codes) (drop 1 rows) [].

End Rows.

Import Rows.

(** ** Session: one browser, its faults, and the program run on it *)

Module Session.

Inductive exn :=
| StaleElementReferenceException
| WebDriverError   (** any other subclass of [Exception] *)
| NonException.    (** a [BaseException] that is not an [Exception] *)

Definition is_Exception (e : exn) : bool :=
  match e with NonException => false | _ => true end.

Inductive result (A : Type) :=
| Ok (a : A)
| Raise (e : exn).
Arguments Ok {A} a.
Arguments Raise {A} e.

(** What the program asks of a browser. Each operation stands for the
    browser calls of one [try] block (or of the set-up), which the
    program does not tell apart: it either yields a value or raises.
    - [open_driver]: [create_driver()], line 167;
    - [setup]: lines 170-181;
    - [select_attempt]: lines 68-72;
    - [click_attempt]: lines 196-199;
    - [read_attempt]: lines 88-93 and the cell texts read at 99-116;
    - [quit]: [driver.quit()], taken not to raise. *)
Class Browser (W : Type) := {
  open_driver : W -> result unit * W;
  setup : W -> result unit * W;
  select_attempt : str -> W -> result unit * W;
  click_attempt : W -> result unit * W;
  read_attempt : W -> result table * W;
  quit : W -> W
}.

Inductive message :=
| MsgSelectStale (ders_kodu : str)   (** line 187 *)
| MsgClickStale (ders_kodu : str)    (** line 204 *)
| MsgTableStale (ders_kodu : str)    (** line 127 *)
| MsgFetched (ders_kodu : str)       (** line 214 *)
| MsgItemError (ders_kodu : str).    (** line 216 *)

(** What a run leaves behind: drivers created and quit, tables
    delivered by the browser, lines printed. *)
Inductive event :=
| EvCreate
| EvQuit
| EvTable (rows : table)
| EvPrint (m : message).

Record session (W : Type) := { world : W; log : list event }.
Arguments world {W} s.
Arguments log {W} s.

Definition new_session {W} (w : W) : session W := {| world := w; log := [] |}.

(** State and exceptions. *)
Definition M (W A : Type) : Type := session W -> result A * session W.

Definition ret {W A} (a : A) : M W A := fun s => (Ok a, s).

Definition bind {W A B} (m : M W A) (k : A -> M W B) : M W B :=
  fun s =>
    match m s with
    | (Ok a, s') => k a s'
    | (Raise e, s') => (Raise e, s')
    end.

Notation "x <~ m ;; k" := (bind m (fun x => k))
  (at level 100, m at next level, right associativity).
Notation "m ;;; k" := (bind m (fun _ => k))
  (at level 100, right associativity).

Definition emit {W} (ev : event) : M W unit :=
  fun s => (Ok tt, {| world := world s; log := log s ++ [ev] |}).

Definition print {W} (m : message) : M W unit := emit (EvPrint m).

(** A browser call; the log is untouched. *)
Definition call {W A} (op : W -> result A * W) : M W A :=
  fun s =>
    let '(r, w') := op (world s) in (r, {| world := w'; log := log s |}).

(** [try: body / except StaleElementReferenceException: handler] *)
Definition try_except_stale {W A} (body handler : M W A) : M W A :=
  fun s =>
    match body s with
    | (Raise StaleElementReferenceException, s') => handler s'
    | r => r
    end.

(** [try: body / except Exception: handler] *)
Definition try_except_Exception {W A} (body handler : M W A) : M W A :=
  fun s =>
    match body s with
    | (Raise e, s') => if is_Exception e then handler s' else (Raise e, s')
    | r => r
    end.

(** [try: body / finally: cleanup], for a [cleanup] that does not raise. *)
Definition try_finally {W A} (body : M W A) (cleanup : M W unit) : M W A :=
  fun s =>
    let '(r, s') := body s in
    (r, snd (cleanup s')).

Section Program.

Context {W : Type} `{Browser W}.

(** Line 31, changeable by the user of the script. *)
Variable excluded_codes : list str.

Definition create_driver : M W unit :=
  call open_driver ;;; emit EvCreate.

Definition driver_quit : M W unit :=
  fun s => (Ok tt, {| world := quit (world s); log := log s ++ [EvQuit] |}).

Definition read_table : M W table :=
  rows <~ call read_attempt ;; emit (EvTable rows) ;;; ret rows.

(** Lines 59-76. *)
Fixpoint select_course_code (ders_kodu : str) (retries : nat) : M W bool :=
  match retries with
  | 0 => ret false
  | S n =>
      try_except_stale
        (call (select_attempt ders_kodu) ;;; ret true)
        (select_course_code ders_kodu n)
  end.

(** Lines 79-128. *)
Fixpoint collect_course_entries (ders_kodu : str) (retries : nat)
  : M W (list ders_entry) :=
  match retries with
  | 0 => print (MsgTableStale ders_kodu) ;;; ret []
  | S n =>
      try_except_stale
        (rows <~ read_table ;; ret (table_entries excluded_codes rows))
        (collect_course_entries ders_kodu n)
  end.

(** Lines 194-205, the [for ... else] around the click: [true] when
    the loop was left by [break], [false] when it ran out. *)
Fixpoint click_goster (attempts : nat) : M W bool :=
  match attempts with
  | 0 => ret false
  | S n =>
      try_except_stale (call click_attempt ;;; ret true) (click_goster n)
  end.

(** Lines 184-217: one turn of the loop over the chunk, from
    [entries] before it to [entries] after it. *)
Definition scrape_item (ders_kodu : str) (entries : list ders_entry)
  : M W (list ders_entry) :=
  try_except_Exception
    (selected <~ select_course_code ders_kodu 3 ;;
     if negb selected then
       print (MsgSelectStale ders_kodu) ;;; ret entries
     else
       clicked <~ click_goster 3 ;;
       if negb clicked then
         print (MsgClickStale ders_kodu) ;;; ret entries
       else
         ders_entries <~ collect_course_entries ders_kodu 3 ;;
         match ders_entries with
         | [] => ret entries
         | _ => print (MsgFetched ders_kodu) ;;; ret (entries ++ ders_entries)
         end)
    (print (MsgItemError ders_kodu) ;;; ret entries).

(** Line 183. *)
Fixpoint scrape_loop (chunk : list str) (entries : list ders_entry)
  : M W (list ders_entry) :=
  match chunk with
  | [] => ret entries
  | ders_kodu :: rest =>
      entries' <~ scrape_item ders_kodu entries ;; scrape_loop rest entries'
  end.

(** Lines 162-221. *)
Definition scrape_chunk (chunk : list str) : M W (list ders_entry) :=
  match chunk with
  | [] => ret []
  | _ =>
      create_driver ;;;
      try_finally (call setup ;;; scrape_loop chunk []) driver_quit
  end.

End Program.

End Session.

Import Session.

(** ** Orchestrator: chunks, workers, merge and sort ([main]) *)

Module Orchestrator.

Section Partition.

Context {A : Type}.

(** [enumerate(l)] *)
Definition enumerate (l : list A) : list (nat * A) := imap pair l.

(** Line 242: [chunks[idx % worker_count].append(kod)]. With
    [worker_count = 0] Python raises; [main] gets here only with a
    non-empty list and [WORKER_COUNT >= 2]. *)
Definition assign (worker_count : nat) (chunks : list (list A))
    (p : nat * A) : list (list A) :=
  alter (fun c => c ++ [p.2]) (p.1 mod worker_count) chunks.

(** Lines 239-242. *)
Definition partition_chunks (WORKER_COUNT : nat) (ders_kodlari : list A)
  : list (list A) :=
  let worker_count := min WORKER_COUNT (length ders_kodlari) in
  let chunks := replicate worker_count [] in
  fold_left (assign worker_count) (enumerate ders_kodlari) chunks.

End Partition.

(** Line 271: the key of the final sort, and [<] on such pairs. *)
Definition sort_key (e : ders_entry) : str * str := (Kod e, CRN e).

Definition key_ltb (a b : str * str) : bool :=
  match Text.compare a.1 b.1 with
  | Lt => true
  | Eq => Text.ltb a.2 b.2
  | Gt => false
  end.

(** [list.sort(key=...)] is a stable sort that only asks [<] of the
    keys. On keys that are totally ordered every stable sort returns
    the same list ([stable_sort_unique] below), so insertion from the
    right stands for it. *)
Fixpoint insert_by_key (e : ders_entry) (l : list ders_entry)
  : list ders_entry :=
  match l with
  | [] => [e]
  | y :: l' =>
      if key_ltb (sort_key y) (sort_key e) then y :: insert_by_key e l'
      else e :: l
  end.

Definition sort_by_key (l : list ders_entry) : list ders_entry :=
  foldr insert_by_key [] l.

(** A submitted worker: its index and how [future.result()] ends. *)
Definition future : Type := nat * result (list ders_entry).

(** [as_completed]: the futures in the order in which they finish;
    [order] lists positions of [futures]. *)
Definition as_completed (order : list nat) (futures : list future)
  : list future :=
  omap (fun k => futures !! k) order.

(** Lines 256-266. *)
Fixpoint gather (all_entries : list ders_entry) (completed : list future)
  : result (list ders_entry) :=
  match completed with
  | [] => Ok all_entries
  | (_, Ok result) :: rest => gather (all_entries ++ result) rest
  | (_, Raise e) :: rest =>
      if is_Exception e then gather all_entries rest else Raise e
  end.

Section Main.

Context {W : Type} `{Browser W}.

Variable excluded_codes : list str.

(** Line 34. An [int] in Python; every value below 2, the negative ones
    too, takes the branch of the single worker, as 0 and 1 do here. *)
Variable WORKER_COUNT : nat.

(** The browser that the driver of worker [i] talks to. *)
Variable worlds : nat -> W.

Definition run_worker (i : nat) (chunk : list str)
  : result (list ders_entry) * session W :=
  scrape_chunk excluded_codes chunk (new_session (worlds i)).

(** Lines 251-255: one worker per non-empty chunk. *)
Definition submit_all (chunks : list (list str))
  : list (nat * (result (list ders_entry) * session W)) :=
  (fun p => (p.1, run_worker p.1 p.2))
    <$> filter (fun p => p.2 <> []) (enumerate chunks).

Definition futures_of
    (ran : list (nat * (result (list ders_entry) * session W)))
  : list future :=
  (fun f => (f.1, f.2.1)) <$> ran.

(** Lines 230-266: [all_entries] when the [if] chain is left, for
    the list returned by [get_all_course_codes()]. *)
Definition collect_all (ders_kodlari : list str) (order : list nat)
  : result (list ders_entry) :=
  match ders_kodlari with
  | [] => Ok []
  | _ =>
      if WORKER_COUNT <=? 1 then (run_worker 0 ders_kodlari).1
      else
        let chunks := partition_chunks WORKER_COUNT ders_kodlari in
        gather [] (as_completed order (futures_of (submit_all chunks)))
  end.

(** Lines 269-291: the rows written to the file, none when
    [all_entries] is empty. *)
Definition written_rows (all_entries : list ders_entry)
  : list ders_entry :=
  match all_entries with
  | [] => []
  | _ => sort_by_key all_entries
  end.

(** [main] from line 230 on, given the codes that
    [get_all_course_codes()] returned and the order in which the
    workers finish. *)
Definition main (ders_kodlari : list str) (order : list nat)
  : result (list ders_entry) :=
  match collect_all ders_kodlari order with
  | Ok all_entries => Ok (written_rows all_entries)
  | Raise e => Raise e
  end.

End Main.

End Orchestrator.

Import Orchestrator.

(** ** A scripted browser

    A test double: every operation answers with the next entry of its
    script and succeeds once the script is used up. *)

Module Fake.

Record script := {
  opens : list (result unit);
  setups : list (result unit);
  selects : list (result unit);
  clicks : list (result unit);
  reads : list (result table)
}.

Definition next {A} (d : A) (l : list A) : A * list A :=
  match l with
  | [] => (d, [])
  | x :: l' => (x, l')
  end.

#[export] Instance scripted : Browser script := {|
  open_driver w :=
    let '(r, l) := next (Ok tt) (opens w) in
    (r, {| opens := l; setups := setups w; selects := selects w;
           clicks := clicks w; reads := reads w |});
  setup w :=
    let '(r, l) := next (Ok tt) (setups w) in
    (r, {| opens := opens w; setups := l; selects := selects w;
           clicks := clicks w; reads := reads w |});
  select_attempt _ w :=
    let '(r, l) := next (Ok tt) (selects w) in
    (r, {| opens := opens w; setups := setups w; selects := l;
           clicks := clicks w; reads := reads w |});
  click_attempt w :=
    let '(r, l) := next (Ok tt) (clicks w) in
    (r, {| opens := opens w; setups := setups w; selects := selects w;
           clicks := l; reads := reads w |});
  read_attempt w :=
    let '(r, l) := next (Ok []) (reads w) in
    (r, {| opens := opens w; setups := setups w; selects := selects w;
           clicks := clicks w; reads := l |});
  quit w := w
|}.

Definition calm : script :=
  {| opens := []; setups := []; selects := []; clicks := []; reads := [] |}.

Definition stale {A} : result A := Raise StaleElementReferenceException.

(** A row of 14 cells with the given CRN, code and title. *)
Definition sample_row (crn kod ders : string) : row :=
  [lit crn; lit kod; lit ders] ++ replicate 11 (lit "-").

Definition header : row := [].

End Fake.

Import Fake.

(** ** Discovery: the list of course codes *)

Module Discovery.

(** An [option] element of the drop-down of codes: its text and what
    [get_attribute("value")] gives for it ([None] for no attribute). *)
Record option_element := {
  option_text : str;
  option_value : option str
}.

(** The truth value of [option.get_attribute("value")]. *)
Definition has_value (o : option_element) : bool :=
  match option_value o with
  | Some (_ :: _) => true
  | _ => false
  end.

(** A browser that can also list the drop-down:
    [read_options] stands for lines 148-156, the wait for the
    drop-down and the reads of every option's attribute and text. *)
Class Catalogue (W : Type) `{Browser W} := {
  read_options : W -> result (list option_element) * W
}.

Section Codes.

Context {W : Type} `{Catalogue W}.

(** Lines 131-159. The set-up at lines 135-146 is the one of
    [scrape_chunk], lines 170-181. *)
Definition get_all_course_codes : M W (list str) :=
  create_driver ;;;
  try_finally
    (call setup ;;;
     options <~ call read_options ;;
     ret ((fun option => strip (option_text option))
            <$> filter (fun option => has_value option) options))
    driver_quit.

Variable excluded_codes : list str.
Variable WORKER_COUNT : nat.

(** The browser of the discovery and those of the workers. *)
Variable discovery_world : W.
Variable worlds : nat -> W.

(** [main] from its first line: the rows written, and the session of
    the discovery. *)
Definition main_from_start (order : list nat)
  : result (list ders_entry) * session W :=
  let '(found, s) := get_all_course_codes (new_session discovery_world) in
  match found with
  | Ok ders_kodlari =>
      (main excluded_codes WORKER_COUNT worlds ders_kodlari order, s)
  | Raise e => (Raise e, s)
  end.

End Codes.

End Discovery.

Import Discovery.

(** ** A scripted browser with a drop-down *)

Module FakeCatalogue.

Record listing := {
  page : script;
  listings : list (result (list option_element))
}.

Definition on_page {A} (op : script -> result A * script) (w : listing)
  : result A * listing :=
  let '(r, p) := op (page w) in (r, {| page := p; listings := listings w |}).

#[export] Instance listing_browser : Browser listing := {|
  open_driver := on_page open_driver;
  setup := on_page setup;
  select_attempt kod := on_page (select_attempt kod);
  click_attempt := on_page click_attempt;
  read_attempt := on_page read_attempt;
  quit w := {| page := quit (page w); listings := listings w |}
|}.

#[export] Instance listing_catalogue : Catalogue listing := {|
  read_options w :=
    let '(r, l) := next (Ok []) (listings w) in
    (r, {| page := page w; listings := l |})
|}.

Definition choice (text : string) (value : string) : option_element :=
  {| option_text := lit text; option_value := Some (lit value) |}.

End FakeCatalogue.

Import FakeCatalogue.

(** * Vocabulary of the statements *)

(** ** Strings *)

Definition starts_clean (s : str) : Prop :=
  forall c, head s = Some c -> isspace c = false.

Definition ends_clean (s : str) : Prop :=
  forall c, last s = Some c -> isspace c = false.

(** ** Rows *)

(** The rows of which a record is kept. *)
Definition qualifies (excluded_codes : list str) (cells : row) : Prop :=
  14 <= length cells /\ Kod (make_entry cells) ∉ excluded_codes.

#[global] Instance qualifies_dec excluded_codes cells :
  Decision (qualifies excluded_codes cells).
Proof. unfold qualifies. apply _. Defined.

(** ** Answers of the browser *)

Definition at_log {W} (w : W) (l : list event) : session W :=
  {| world := w; log := l |}.

(** [k] stale answers of [op] in a row lead from [w] to [w']. *)
Fixpoint stale_run {W A} (op : W -> result A * W) (k : nat) (w w' : W)
  : Prop :=
  match k with
  | 0 => w' = w
  | S k' =>
      exists w1,
        op w = (Raise StaleElementReferenceException, w1)
        /\ stale_run op k' w1 w'
  end.

(** [op] answers [a] after fewer than three stale answers. *)
Definition clears {W A} (op : W -> result A * W) (w : W) (a : A) (w' : W)
  : Prop :=
  exists k w1, k < 3 /\ stale_run op k w w1 /\ op w1 = (Ok a, w').

(** [op] is stale three times in a row. *)
Definition exhausts {W A} (op : W -> result A * W) (w w' : W) : Prop :=
  stale_run op 3 w w'.

(** ** Logs *)

(** The line printed after a table that gave records. *)
Definition fetched_line (kod : str) (found : list ders_entry) : list event :=
  match found with
  | [] => []
  | _ => [EvPrint (MsgFetched kod)]
  end.

(** The tables that the browser delivered. *)
Definition tables_in (evs : list event) : list table :=
  omap (fun ev => match ev with EvTable rows => Some rows | _ => None end)
    evs.

(** Events of the loop over the chunk: anything but opening and
    closing a driver. *)
Definition item_event (ev : event) : Prop :=
  match ev with
  | EvCreate | EvQuit => False
  | _ => True
  end.

(** ** Keys *)

(** Comparison of two keys, first by code, then by CRN. *)
Definition key_compare (a b : str * str) : comparison :=
  match Text.compare a.1 b.1 with
  | Eq => Text.compare a.2 b.2
  | c => c
  end.

(** [e1] may stand before [e2] in a sorted list. *)
Definition key_le (e1 e2 : ders_entry) : Prop :=
  key_ltb (sort_key e2) (sort_key e1) = false.

(** The records of [l] that carry the key [k], in their order. *)
Definition with_key (k : str * str) (l : list ders_entry) : list ders_entry :=
  filter (fun e => sort_key e = k) l.

(** ** Batches *)

(** What a finished worker adds to [all_entries]. *)
Definition batch_of (f : future) : list ders_entry :=
  match f.2 with
  | Ok b => b
  | Raise _ => []
  end.

(** The worker returned, or raised an [Exception]. *)
Definition caught (f : future) : Prop :=
  match f.2 with
  | Ok _ => True
  | Raise e => is_Exception e = true
  end.

(** Two batches never hold different records under one key. *)
Definition same_key_same_entry (b1 b2 : list ders_entry) : Prop :=
  forall e1 e2,
    e1 ∈ b1 -> e2 ∈ b2 -> sort_key e1 = sort_key e2 -> e1 = e2.

(** Any two batches at different places are so. *)
Definition batches_agree (bs : list (list ders_entry)) : Prop :=
  forall i j b1 b2,
    i <> j -> bs !! i = Some b1 -> bs !! j = Some b2 ->
    same_key_same_entry b1 b2.

(** ** Chunks *)

(** After the items [pre], with [length pre = q0 * n + r0]: chunk [j]
    holds the items at [j], [n + j], [2 n + j], ... *)
Definition dealt {A} (n : nat) (pre : list A) (chunks : list (list A))
    (q0 r0 : nat) : Prop :=
  length pre = q0 * n + r0
  /\ r0 < n
  /\ length chunks = n
  /\ (forall j c,
        chunks !! j = Some c ->
        length c = q0 + (if decide (j < r0) then 1 else 0)
        /\ forall q, c !! q = pre !! (q * n + j))
  /\ concat chunks ≡ₚ pre.

(** ** Runs *)

(** A worker: its index, how it ended, and what it left behind. *)
Definition worker (W : Type) : Type :=
  nat * (result (list ders_entry) * session W).

Section RunVocabulary.

Context {W : Type} `{Browser W}.
Variable excluded_codes : list str.
Variable WORKER_COUNT : nat.
Variable worlds : nat -> W.

(** The workers that [main] starts, each with how it ended. *)
Definition workers_of (ders_kodlari : list str) : list (worker W) :=
  match ders_kodlari with
  | [] => []
  | _ =>
      if WORKER_COUNT <=? 1
      then [(0, run_worker excluded_codes worlds 0 ders_kodlari)]
      else submit_all excluded_codes worlds
             (partition_chunks WORKER_COUNT ders_kodlari)
  end.

(** All tables that the browsers of these workers delivered. *)
Definition tables_read (ran : list (worker W)) : list table :=
  flat_map (fun f => tables_in (log f.2.2)) ran.

(** [order] names every submitted worker once. *)
Definition completion_order (order : list nat) (ran : list (worker W))
  : Prop :=
  order ≡ₚ seq 0 (length ran).

End RunVocabulary.

(** ** More vocabulary *)

(** A text in the form [clean_text] gives: no white space at either
    end and no line feed. *)
Definition normal (s : str) : Prop :=
  starts_clean s /\ ends_clean s /\ Forall (fun c => c <> newline) s.

(** [op] raises [e] after fewer than three stale answers. *)
Definition breaks {W A} (op : W -> result A * W) (w : W) (e : exn) (w' : W)
  : Prop :=
  exists k w1,
    k < 3 /\ stale_run op k w w1 /\ op w1 = (@Raise A e, w').

(** Some phase of the item raises [e], the phases before it having
    got their answers. *)
Definition item_breaks {W : Type} `{Browser W}
    (kod : str) (w : W) (e : exn) (w' : W) : Prop :=
  breaks (select_attempt kod) w e w'
  \/ (exists w1,
        clears (select_attempt kod) w tt w1
        /\ breaks click_attempt w1 e w')
  \/ (exists w1 w2,
        clears (select_attempt kod) w tt w1
        /\ clears click_attempt w1 tt w2
        /\ breaks read_attempt w2 e w').

(** The tables in the log grow by at most [n] along [m]. *)
Definition reads_at_most {W A} (n : nat) (m : M W A) : Prop :=
  forall s,
    length (tables_in (log (m s).2)) <= length (tables_in (log s)) + n.

(** The loop over [chunk] goes code by code from [entries] and [s] to
    [final] and [s']: the turn of each code returns, reads at most one
    table, and appends the records of what it read. *)
Fixpoint item_by_item {W : Type} `{Browser W} (excluded_codes : list str)
    (chunk : list str) (entries : list ders_entry) (s : session W)
    (final : list ders_entry) (s' : session W) : Prop :=
  match chunk with
  | [] => final = entries /\ s' = s
  | kod :: rest =>
      exists mid s1,
        scrape_item excluded_codes kod entries s
        = (Ok (entries
               ++ flat_map (table_entries excluded_codes) (tables_in mid)),
           s1)
        /\ log s1 = log s ++ mid
        /\ length (tables_in mid) <= 1
        /\ item_by_item excluded_codes rest
             (entries
              ++ flat_map (table_entries excluded_codes) (tables_in mid))
             s1 final s'
  end.

Definition is_create (ev : event) : bool :=
  match ev with EvCreate => true | _ => false end.

Definition is_quit (ev : event) : bool :=
  match ev with EvQuit => true | _ => false end.

(** How many drivers a log shows as created, and as quit. *)
Definition created (evs : list event) : nat :=
  length (filter (fun ev => is_create ev) evs).

Definition quitted (evs : list event) : nat :=
  length (filter (fun ev => is_quit ev) evs).

(** * Properties *)

(** ** clean_text *)

Section CleanTextFacts.

Lemma lstrip_head_not_space s c s' :
  lstrip s = c :: s' -> isspace c = false.
Proof.
  induction s as [|a s IH]; simpl; [discriminate|].
  destruct (isspace a) eqn:E; [exact IH|].
  intros [= -> _]. exact E.
Qed.

Lemma lstrip_suffix s : exists p, s = p ++ lstrip s.
Proof.
  induction s as [|a s [p Hp]]; simpl.
  - by exists [].
  - destruct (isspace a).
    + exists (a :: p). simpl. by rewrite <- Hp.
    + by exists [].
Qed.

Lemma lstrip_starts_clean s : starts_clean (lstrip s).
Proof.
  intros c Hc. apply head_Some in Hc as [s' Hs'].
  by eapply lstrip_head_not_space.
Qed.

Lemma lstrip_id s : starts_clean s -> lstrip s = s.
Proof.
  destruct s as [|a s]; [done|]. intros Hs. simpl.
  by rewrite (Hs a eq_refl).
Qed.

Lemma rstrip_ends_clean s : ends_clean (rstrip s).
Proof.
  intros c. unfold rstrip. rewrite last_reverse. apply lstrip_starts_clean.
Qed.

Lemma rstrip_id s : ends_clean s -> rstrip s = s.
Proof.
  intros Hs. unfold rstrip. rewrite lstrip_id.
  - apply reverse_involutive.
  - intros c. rewrite head_reverse. apply Hs.
Qed.

Lemma rstrip_prefix s : exists q, s = rstrip s ++ q.
Proof.
  unfold rstrip. destruct (lstrip_suffix (reverse s)) as [p Hp].
  exists (reverse p).
  rewrite <- reverse_app, <- Hp. symmetry. apply reverse_involutive.
Qed.

Lemma rstrip_starts_clean s : starts_clean s -> starts_clean (rstrip s).
Proof.
  intros Hs c Hc. apply Hs.
  destruct (rstrip_prefix s) as [q Hq]. rewrite Hq.
  apply head_Some in Hc as [t Ht]. by rewrite Ht.
Qed.

Lemma strip_clean s : starts_clean (strip s) /\ ends_clean (strip s).
Proof.
  split.
  - apply rstrip_starts_clean, lstrip_starts_clean.
  - apply rstrip_ends_clean.
Qed.

Lemma strip_id s : starts_clean s -> ends_clean s -> strip s = s.
Proof.
  intros H1 H2. unfold strip. rewrite (lstrip_id s H1). by apply rstrip_id.
Qed.

Lemma replace_app old new s t :
  replace old new (s ++ t) = replace old new s ++ replace old new t.
Proof.
  induction s as [|a s IH]; simpl; [done|]. by rewrite IH, app_assoc.
Qed.

Lemma replace_absent old new s :
  Forall (fun c => c <> old) s -> replace old new s = s.
Proof.
  induction 1 as [|a s Ha _ IH]; simpl; [done|].
  apply N.eqb_neq in Ha. by rewrite Ha, IH.
Qed.

Lemma replace_removes old new s :
  Forall (fun c => c <> old) new ->
  Forall (fun c => c <> old) (replace old new s).
Proof.
  intros Hnew. induction s as [|a s IH]; simpl; [constructor|].
  apply Forall_app. split; [|done].
  destruct (N.eqb_spec a old); [done|]. by constructor.
Qed.

Lemma replace_starts_clean new s :
  starts_clean s -> starts_clean (replace newline new s).
Proof.
  destruct s as [|a s]; [done|]. intros Hs c. simpl.
  pose proof (Hs a eq_refl) as Ha.
  destruct (N.eqb_spec a newline) as [->|_]; [discriminate|].
  simpl. by intros [= <-].
Qed.

Lemma replace_ends_clean new s :
  ends_clean s -> ends_clean (replace newline new s).
Proof.
  destruct (last s) as [a|] eqn:Hl.
  - apply last_Some in Hl as [t ->]. intros Hs c.
    pose proof (Hs a (last_snoc _ _)) as Ha.
    rewrite replace_app. simpl.
    destruct (N.eqb_spec a newline) as [->|_]; [discriminate|].
    rewrite app_nil_r, last_snoc. by intros [= <-].
  - apply last_None in Hl as ->. done.
Qed.

Lemma clean_text_fixed s :
  starts_clean s -> ends_clean s -> Forall (fun c => c <> newline) s ->
  clean_text s = s.
Proof.
  intros H1 H2 H3. unfold clean_text.
  rewrite (strip_id s H1 H2). by apply replace_absent.
Qed.

(** C8. [clean_text] is idempotent: cleaning a cleaned string gives
    the same string again, for every input string. *)
Theorem clean_text_idempotent (s : str) :
  clean_text (clean_text s) = clean_text s.
Proof.
  destruct (strip_clean s) as [H1 H2].
  apply clean_text_fixed; unfold clean_text.
  - by apply replace_starts_clean.
  - by apply replace_ends_clean.
  - apply replace_removes. repeat constructor; discriminate.
Qed.

End CleanTextFacts.

(** ** Rows *)

Section RowFacts.

Variable excluded_codes : list str.

Lemma row_step_short entries cells :
  length cells < 14 -> row_step excluded_codes entries cells = entries.
Proof.
  intros Hlen. unfold row_step.
  by destruct (Nat.ltb_spec (length cells) 14); [|lia].
Qed.

Lemma row_step_filter entries cells :
  row_step excluded_codes entries cells
  = entries ++ (make_entry <$> filter (qualifies excluded_codes) [cells]).
Proof.
  unfold row_step, qualifies. rewrite filter_cons, filter_nil.
  destruct (Nat.ltb_spec (length cells) 14) as [Hlt|Hge].
  - rewrite decide_False by lia. by rewrite app_nil_r.
  - destruct (decide (Kod (make_entry cells) ∈ excluded_codes)) as [Hin|Hout].
    + rewrite decide_False by tauto. by rewrite app_nil_r.
    + by rewrite decide_True.
Qed.

Lemma fold_row_step rows entries :
  fold_left (row_step excluded_codes) rows entries
  = entries ++ (make_entry <$> filter (qualifies excluded_codes) rows).
Proof.
  revert entries. induction rows as [|cells rows IH]; intros entries; simpl.
  - by rewrite app_nil_r.
  - rewrite IH, row_step_filter, <- app_assoc, <- fmap_app,
      <- filter_app. done.
Qed.

Lemma table_entries_filter rows :
  table_entries excluded_codes rows
  = make_entry <$> filter (qualifies excluded_codes) (drop 1 rows).
Proof. unfold table_entries. by rewrite fold_row_step. Qed.

Lemma table_entries_not_excluded rows :
  Forall (fun e => Kod e ∉ excluded_codes)
    (table_entries excluded_codes rows).
Proof.
  rewrite table_entries_filter, Forall_fmap.
  apply Forall_forall. intros cells Hin.
  apply list_elem_of_filter in Hin as [[_ Hq] _]. exact Hq.
Qed.

Lemma table_entries_split h before after :
  table_entries excluded_codes (h :: before ++ after)
  = table_entries excluded_codes (h :: before)
    ++ table_entries excluded_codes (h :: after).
Proof.
  rewrite !table_entries_filter. simpl. rewrite !drop_0.
  by rewrite filter_app, fmap_app.
Qed.

End RowFacts.

(** C4. For the cells of any row, with [raw] the cleaned text of the
    delivery-mode cell: the long physical label becomes "Fiziksel", the
    long online label becomes "Online", and any other value is the
    record's delivery mode as it is. *)
Theorem delivery_mode_mapping (cells : row) :
  let raw := clean_text (cell cells 3) in
  let mode := Ogretim_Yontemi (make_entry cells) in
  (raw = fiziksel_raw -> mode = lit "Fiziksel")
  /\ (raw = sanal_raw -> mode = lit "Online")
  /\ (raw <> fiziksel_raw -> raw <> sanal_raw -> mode = raw).
Proof.
  simpl. unfold map_ogretim_yontemi. repeat split.
  - intros ->. by rewrite decide_True.
  - intros ->. rewrite decide_False by (vm_compute; discriminate).
    by rewrite decide_True.
  - intros H1 H2. by rewrite !decide_False.
Qed.

(** C4 on three rows: padded physical label, online label, other text. *)
Lemma delivery_mode_mapping_witness :
  let cells mode := [lit "10"; lit "AKM 101"; lit "Statik"; mode]
                    ++ replicate 10 (lit "-") in
  Ogretim_Yontemi (make_entry (cells (lit "  " ++ fiziksel_raw ++ lit " ")))
  = lit "Fiziksel"
  /\ Ogretim_Yontemi (make_entry (cells sanal_raw)) = lit "Online"
  /\ Ogretim_Yontemi (make_entry (cells (lit " Hibrit "))) = lit "Hibrit".
Proof.
  intros cells. split; [|split].
  - apply (proj1 (delivery_mode_mapping
                    (cells (lit "  " ++ fiziksel_raw ++ lit " ")))).
    reflexivity.
  - apply (proj1 (proj2 (delivery_mode_mapping (cells sanal_raw)))).
    reflexivity.
  - apply (proj2 (proj2 (delivery_mode_mapping (cells (lit " Hibrit ")))));
      vm_compute; discriminate.
Defined.

(** ** Retries inside one item *)

(** Runs one browser call of a retry loop whose answer is known. *)
Ltac run_attempt Hop :=
  unfold try_except_stale, read_table, bind, call, emit, ret; simpl;
  rewrite Hop; simpl.

Section RetryFacts.

Context {W : Type} `{Browser W}.
Variable excluded_codes : list str.

Lemma select_exhausted kod n w w' l :
  stale_run (select_attempt kod) n w w' ->
  select_course_code kod n (at_log w l) = (Ok false, at_log w' l).
Proof.
  revert w. induction n as [|n IH]; intros w; simpl.
  - by intros ->.
  - intros (w1 & Hop & Hrun). run_attempt Hop. by apply IH.
Qed.

Lemma select_cleared kod n k w w1 w2 l :
  k < n -> stale_run (select_attempt kod) k w w1 ->
  select_attempt kod w1 = (Ok tt, w2) ->
  select_course_code kod n (at_log w l) = (Ok true, at_log w2 l).
Proof.
  revert n w. induction k as [|k IH]; intros [|n] w Hk; try lia; simpl.
  - intros -> Hop. by run_attempt Hop.
  - intros (w' & Hop & Hrun) Hok. run_attempt Hop.
    apply IH; [lia|done..].
Qed.

Lemma click_exhausted n w w' l :
  stale_run click_attempt n w w' ->
  click_goster n (at_log w l) = (Ok false, at_log w' l).
Proof.
  revert w. induction n as [|n IH]; intros w; simpl.
  - by intros ->.
  - intros (w1 & Hop & Hrun). run_attempt Hop. by apply IH.
Qed.

Lemma click_cleared n k w w1 w2 l :
  k < n -> stale_run click_attempt k w w1 ->
  click_attempt w1 = (Ok tt, w2) ->
  click_goster n (at_log w l) = (Ok true, at_log w2 l).
Proof.
  revert n w. induction k as [|k IH]; intros [|n] w Hk; try lia; simpl.
  - intros -> Hop. by run_attempt Hop.
  - intros (w' & Hop & Hrun) Hok. run_attempt Hop.
    apply IH; [lia|done..].
Qed.

Lemma collect_exhausted kod n w w' l :
  stale_run read_attempt n w w' ->
  collect_course_entries excluded_codes kod n (at_log w l)
  = (Ok [], at_log w' (l ++ [EvPrint (MsgTableStale kod)])).
Proof.
  revert w. induction n as [|n IH]; intros w; simpl.
  - by intros ->.
  - intros (w1 & Hop & Hrun). run_attempt Hop. by apply IH.
Qed.

Lemma collect_cleared kod n k w w1 w2 rows l :
  k < n -> stale_run read_attempt k w w1 ->
  read_attempt w1 = (Ok rows, w2) ->
  collect_course_entries excluded_codes kod n (at_log w l)
  = (Ok (table_entries excluded_codes rows), at_log w2 (l ++ [EvTable rows])).
Proof.
  revert n w. induction k as [|k IH]; intros [|n] w Hk; try lia; simpl.
  - intros -> Hop. by run_attempt Hop.
  - intros (w' & Hop & Hrun) Hok. run_attempt Hop.
    apply IH; [lia|done..].
Qed.

Lemma scrape_item_select_exhausted kod entries w w' l :
  exhausts (select_attempt kod) w w' ->
  scrape_item excluded_codes kod entries (at_log w l)
  = (Ok entries, at_log w' (l ++ [EvPrint (MsgSelectStale kod)])).
Proof.
  intros Hs. unfold scrape_item, try_except_Exception, bind.
  by rewrite (select_exhausted _ _ _ _ _ Hs).
Qed.

Lemma scrape_item_click_exhausted kod entries w w1 w2 l :
  clears (select_attempt kod) w tt w1 ->
  exhausts click_attempt w1 w2 ->
  scrape_item excluded_codes kod entries (at_log w l)
  = (Ok entries, at_log w2 (l ++ [EvPrint (MsgClickStale kod)])).
Proof.
  intros (k & w' & Hk & Hrun & Hok) Hc.
  unfold scrape_item, try_except_Exception, bind.
  rewrite (select_cleared _ _ _ _ _ _ _ Hk Hrun Hok). cbn [negb].
  by rewrite (click_exhausted _ _ _ _ Hc).
Qed.

Lemma scrape_item_read_exhausted kod entries w w1 w2 w3 l :
  clears (select_attempt kod) w tt w1 ->
  clears click_attempt w1 tt w2 ->
  exhausts read_attempt w2 w3 ->
  scrape_item excluded_codes kod entries (at_log w l)
  = (Ok entries, at_log w3 (l ++ [EvPrint (MsgTableStale kod)])).
Proof.
  intros (k & w' & Hk & Hrun & Hok) (k' & w'' & Hk' & Hrun' & Hok') Hr.
  unfold scrape_item, try_except_Exception, bind.
  rewrite (select_cleared _ _ _ _ _ _ _ Hk Hrun Hok). cbn [negb].
  rewrite (click_cleared _ _ _ _ _ _ Hk' Hrun' Hok'). cbn [negb].
  by rewrite (collect_exhausted _ _ _ _ _ Hr).
Qed.

Lemma scrape_item_cleared kod entries w w1 w2 w3 rows l :
  clears (select_attempt kod) w tt w1 ->
  clears click_attempt w1 tt w2 ->
  clears read_attempt w2 rows w3 ->
  scrape_item excluded_codes kod entries (at_log w l)
  = (Ok (entries ++ table_entries excluded_codes rows),
     at_log w3 (l ++ [EvTable rows]
                  ++ fetched_line kod (table_entries excluded_codes rows))).
Proof.
  intros (k & w' & Hk & Hrun & Hok) (k' & w'' & Hk' & Hrun' & Hok')
    (k3 & w''' & Hk3 & Hrun3 & Hok3).
  unfold scrape_item, try_except_Exception, bind.
  rewrite (select_cleared _ _ _ _ _ _ _ Hk Hrun Hok). cbn [negb].
  rewrite (click_cleared _ _ _ _ _ _ Hk' Hrun' Hok'). cbn [negb].
  rewrite (collect_cleared _ _ _ _ _ _ _ _ Hk3 Hrun3 Hok3).
  destruct (table_entries excluded_codes rows) as [|e es]; simpl.
  - by rewrite !app_nil_r.
  - unfold print, emit, ret. simpl. by rewrite <- app_assoc.
Qed.

End RetryFacts.

(** C3. Each of the three phases of an item (select the code, click the
    button, read the table) is tried again in place on a stale answer, up
    to three attempts. When every phase gets an answer within its three
    attempts the item adds the records of its table and the loop goes on
    with the next code. When a phase is stale three times the item adds
    nothing, one line is printed, and the loop goes on with the next code. *)
Theorem retry_budget {W : Type} `{Browser W} (excluded_codes : list str)
    (kod : str) (rest : list str) (entries : list ders_entry)
    (s : session W) :
  (forall w1 w2 w3 rows,
      clears (select_attempt kod) (world s) tt w1 ->
      clears click_attempt w1 tt w2 ->
      clears read_attempt w2 rows w3 ->
      exists s',
        scrape_item excluded_codes kod entries s
        = (Ok (entries ++ table_entries excluded_codes rows), s')
        /\ world s' = w3
        /\ scrape_loop excluded_codes (kod :: rest) entries s
           = scrape_loop excluded_codes rest
               (entries ++ table_entries excluded_codes rows) s')
  /\ (forall w',
        (exhausts (select_attempt kod) (world s) w'
         \/ (exists w1,
               clears (select_attempt kod) (world s) tt w1
               /\ exhausts click_attempt w1 w')
         \/ (exists w1 w2,
               clears (select_attempt kod) (world s) tt w1
               /\ clears click_attempt w1 tt w2
               /\ exhausts read_attempt w2 w')) ->
        exists line,
          let s' := at_log w' (log s ++ [EvPrint line]) in
          scrape_item excluded_codes kod entries s = (Ok entries, s')
          /\ scrape_loop excluded_codes (kod :: rest) entries s
             = scrape_loop excluded_codes rest entries s').
Proof.
  destruct s as [w l]. simpl. split.
  - intros w1 w2 w3 rows Hs Hc Hr.
    pose proof (scrape_item_cleared excluded_codes kod entries
                  w w1 w2 w3 rows l Hs Hc Hr) as Hitem.
    unfold at_log in Hitem. eexists. split; [exact Hitem|].
    split; [done|]. unfold bind. by rewrite Hitem.
  - intros w' Hcase.
    assert (exists line,
               scrape_item excluded_codes kod entries (at_log w l)
               = (Ok entries, at_log w' (l ++ [EvPrint line])))
      as [line Hitem].
    { destruct Hcase as [Hs|[(w1 & Hs & Hc)|(w1 & w2 & Hs & Hc & Hr)]].
      - eexists. by apply scrape_item_select_exhausted.
      - eexists. by eapply scrape_item_click_exhausted.
      - eexists. by eapply scrape_item_read_exhausted. }
    exists line. unfold at_log in *. split; [exact Hitem|].
    unfold bind. by rewrite Hitem.
Qed.

(** C3 on the scripted browser: two stale selections and then an answer
    still give the row; three stale selections give nothing and the
    fourth fault falls on the next code. *)
Lemma retry_budget_witness :
  let tbl := [header; sample_row "10" "AKM101" "Statik"] in
  let w2 := {| opens := []; setups := [];
               selects := [stale; stale];
               clicks := []; reads := [Ok tbl] |} in
  let w3 := {| opens := []; setups := [];
               selects := [stale; stale; stale];
               clicks := []; reads := [Ok tbl] |} in
  (exists s',
      scrape_item [] (lit "AKM") [] (new_session w2)
      = (Ok ([] ++ table_entries [] tbl), s'))
  /\ (exists s',
        scrape_item [] (lit "AKM") [] (new_session w3) = (Ok [], s')).
Proof.
  intros tbl w2 w3. split.
  - destruct (proj1 (retry_budget [] (lit "AKM") [] [] (new_session w2))
                {| opens := []; setups := []; selects := [];
                   clicks := []; reads := [Ok tbl] |}
                {| opens := []; setups := []; selects := [];
                   clicks := []; reads := [Ok tbl] |}
                calm tbl) as (s' & Hitem & _).
    + exists 2.
      exists {| opens := []; setups := []; selects := [];
                clicks := []; reads := [Ok tbl] |}.
      split; [lia|]. split; [|reflexivity].
      simpl. eexists. split; [reflexivity|]. eexists. split; reflexivity.
    + exists 0. eexists. split; [lia|]. split; reflexivity.
    + exists 0. eexists. split; [lia|]. split; reflexivity.
    + exists s'. exact Hitem.
  - destruct (proj2 (retry_budget [] (lit "AKM") [] [] (new_session w3))
                {| opens := []; setups := []; selects := [];
                   clicks := []; reads := [Ok tbl] |})
      as (line & Hitem & _).
    + left. simpl. eexists. split; [reflexivity|].
      eexists. split; [reflexivity|]. eexists. split; reflexivity.
    + eexists. exact Hitem.
Defined.

(** ** What a run of a worker leaves in its log *)

Section RunFacts.

Context {W : Type} `{Browser W}.
Variable excluded_codes : list str.

Lemma tables_in_app evs1 evs2 :
  tables_in (evs1 ++ evs2) = tables_in evs1 ++ tables_in evs2.
Proof. apply omap_app. Qed.

Lemma select_log kod n s :
  exists r w', select_course_code kod n s = (r, at_log w' (log s)).
Proof.
  revert s. induction n as [|n IH]; intros [w l]; simpl.
  - by eexists _, _.
  - unfold try_except_stale, bind, call, ret; simpl.
    destruct (select_attempt kod w) as [[[]|[]] w1]; simpl;
      try (by eexists _, _).
    apply (IH (at_log w1 l)).
Qed.

Lemma click_log n s :
  exists r w', click_goster n s = (r, at_log w' (log s)).
Proof.
  revert s. induction n as [|n IH]; intros [w l]; simpl.
  - by eexists _, _.
  - unfold try_except_stale, bind, call, ret; simpl.
    destruct (click_attempt w) as [[[]|[]] w1]; simpl;
      try (by eexists _, _).
    apply (IH (at_log w1 l)).
Qed.

Lemma collect_outcome kod n s :
  exists w',
    (exists rows,
        collect_course_entries excluded_codes kod n s
        = (Ok (table_entries excluded_codes rows),
           at_log w' (log s ++ [EvTable rows])))
    \/ collect_course_entries excluded_codes kod n s
       = (Ok [], at_log w' (log s ++ [EvPrint (MsgTableStale kod)]))
    \/ (exists e,
          collect_course_entries excluded_codes kod n s
          = (Raise e, at_log w' (log s))).
Proof.
  revert s. induction n as [|n IH]; intros [w l]; simpl.
  - exists w. right. by left.
  - unfold try_except_stale, read_table, bind, call, emit, ret; simpl.
    destruct (read_attempt w) as [[rows|[]] w1]; simpl.
    + exists w1. left. by exists rows.
    + apply (IH (at_log w1 l)).
    + exists w1. right. right. by eexists.
    + exists w1. right. right. by eexists.
Qed.

(** One item: the log grows by item events only, and the records
    added are exactly those of the tables delivered meanwhile. Only an
    exception outside [Exception] leaves the item. *)
Lemma scrape_item_outcome kod entries s :
  exists r s' mid,
    scrape_item excluded_codes kod entries s = (r, s')
    /\ log s' = log s ++ mid
    /\ Forall item_event mid
    /\ (r = Ok (entries
                ++ flat_map (table_entries excluded_codes) (tables_in mid))
        \/ r = Raise NonException).
Proof.
  unfold scrape_item, try_except_Exception, bind, print, emit, ret.
  destruct (select_log kod 3 s) as (r1 & w1 & ->).
  destruct r1 as [[|]|e1]; cbn [negb world log at_log].
  2:{ eexists _, _, [_]. repeat split; [by repeat constructor|].
      left. simpl. by rewrite app_nil_r. }
  2:{ destruct e1; cbn [is_Exception world log].
      3:{ eexists _, _, []. rewrite app_nil_r.
          repeat split; [constructor|by right]. }
      all: eexists _, _, [_]; repeat split; [by repeat constructor|];
        left; simpl; by rewrite app_nil_r. }
  destruct (click_log 3 (at_log w1 (log s))) as (r2 & w2 & ->).
  destruct r2 as [[|]|e2]; cbn [negb world log at_log].
  2:{ eexists _, _, [_]. repeat split; [by repeat constructor|].
      left. simpl. by rewrite app_nil_r. }
  2:{ destruct e2; cbn [is_Exception world log].
      3:{ eexists _, _, []. rewrite app_nil_r.
          repeat split; [constructor|by right]. }
      all: eexists _, _, [_]; repeat split; [by repeat constructor|];
        left; simpl; by rewrite app_nil_r. }
  destruct (collect_outcome kod 3 (at_log w2 (log s)))
    as (w3 & [(rows & ->)| [->|(e3 & ->)]]); cbn [world log at_log].
  - destruct (table_entries excluded_codes rows) as [|e es] eqn:Hrows.
    + eexists _, _, [_]. repeat split; [by repeat constructor|].
      left. simpl. by rewrite Hrows, !app_nil_r.
    + eexists _, _, [EvTable rows; EvPrint (MsgFetched kod)].
      split; [reflexivity|]. split; [simpl; by rewrite <- app_assoc|].
      split; [by repeat constructor|].
      left. simpl. by rewrite Hrows, app_nil_r.
  - eexists _, _, [_]. repeat split; [by repeat constructor|].
    left. simpl. by rewrite app_nil_r.
  - destruct e3; cbn [is_Exception world log].
    3:{ eexists _, _, []. rewrite app_nil_r.
        repeat split; [constructor|by right]. }
    all: eexists _, _, [_]; repeat split; [by repeat constructor|];
      left; simpl; by rewrite app_nil_r.
Qed.

Lemma scrape_loop_outcome chunk entries s :
  exists r s' mid,
    scrape_loop excluded_codes chunk entries s = (r, s')
    /\ log s' = log s ++ mid
    /\ Forall item_event mid
    /\ (r = Ok (entries
                ++ flat_map (table_entries excluded_codes) (tables_in mid))
        \/ r = Raise NonException).
Proof.
  revert entries s. induction chunk as [|kod rest IH]; intros entries s.
  - exists (Ok entries), s, []. rewrite !app_nil_r.
    repeat split; [constructor|by left].
  - simpl. unfold bind.
    destruct (scrape_item_outcome kod entries s)
      as (r1 & s1 & mid1 & -> & Hlog1 & Hmid1 & [->| ->]).
    + destruct (IH (entries ++ flat_map (table_entries excluded_codes)
                               (tables_in mid1)) s1)
        as (r2 & s2 & mid2 & -> & Hlog2 & Hmid2 & Hr2).
      exists r2, s2, (mid1 ++ mid2). rewrite Hlog2, Hlog1, app_assoc.
      repeat split; [by apply Forall_app|].
      destruct Hr2 as [->| ->]; [left|by right].
      by rewrite tables_in_app, flat_map_app, app_assoc.
    + exists (Raise NonException), s1, mid1. repeat split; [done..|by right].
Qed.

End RunFacts.

(** ** The life of a worker's driver *)

Section ChunkFacts.

Context {W : Type} `{Browser W}.
Variable excluded_codes : list str.

Lemma scrape_chunk_nil s : scrape_chunk excluded_codes [] s = (Ok [], s).
Proof. done. Qed.

Lemma scrape_chunk_unfold chunk s :
  chunk <> [] ->
  scrape_chunk excluded_codes chunk s
  = (create_driver ;;;
     try_finally (call setup ;;; scrape_loop excluded_codes chunk [])
       driver_quit) s.
Proof. by destruct chunk. Qed.

Lemma scrape_chunk_open_fails chunk s e w1 :
  chunk <> [] -> open_driver (world s) = (Raise e, w1) ->
  scrape_chunk excluded_codes chunk s = (Raise e, at_log w1 (log s)).
Proof.
  intros Hne Hopen. rewrite scrape_chunk_unfold by done.
  unfold create_driver, bind, call. by rewrite Hopen.
Qed.

Lemma scrape_chunk_setup_fails chunk s w1 e w2 :
  chunk <> [] -> open_driver (world s) = (Ok tt, w1) ->
  setup w1 = (Raise e, w2) ->
  scrape_chunk excluded_codes chunk s
  = (Raise e, at_log (quit w2) (log s ++ [EvCreate] ++ [] ++ [EvQuit])).
Proof.
  intros Hne Hopen Hsetup. rewrite scrape_chunk_unfold by done.
  unfold create_driver, try_finally, driver_quit, bind, call, emit.
  rewrite Hopen. simpl. rewrite Hsetup. simpl. by rewrite <- app_assoc.
Qed.

Lemma scrape_chunk_setup_ok chunk s w1 w2 :
  chunk <> [] -> open_driver (world s) = (Ok tt, w1) ->
  setup w1 = (Ok tt, w2) ->
  exists r s' mid,
    scrape_chunk excluded_codes chunk s = (r, s')
    /\ log s' = log s ++ [EvCreate] ++ mid ++ [EvQuit]
    /\ Forall item_event mid
    /\ (r = Ok (flat_map (table_entries excluded_codes) (tables_in mid))
        \/ r = Raise NonException).
Proof.
  intros Hne Hopen Hsetup. rewrite scrape_chunk_unfold by done.
  unfold create_driver, try_finally, driver_quit, bind, call, emit.
  rewrite Hopen. simpl. rewrite Hsetup. simpl.
  destruct (scrape_loop_outcome excluded_codes chunk []
              (at_log w2 (log s ++ [EvCreate])))
    as (r & s' & mid & Hloop & Hlog & Hmid & Hr).
  unfold at_log in Hloop. rewrite Hloop. simpl.
  exists r, (at_log (quit (world s')) (log s' ++ [EvQuit])), mid.
  split; [done|]. simpl in *. rewrite Hlog, <- !app_assoc.
  by repeat split.
Qed.

(** Every way a worker can end. *)
Lemma scrape_chunk_outcome chunk s :
  exists r s' evs,
    scrape_chunk excluded_codes chunk s = (r, s')
    /\ log s' = log s ++ evs
    /\ (r = Ok (flat_map (table_entries excluded_codes) (tables_in evs))
        \/ r = Raise NonException
        \/ (exists e, r = Raise e) /\ tables_in evs = []).
Proof.
  destruct (decide (chunk = [])) as [->|Hne].
  { exists (Ok []), s, []. rewrite app_nil_r. repeat split. by left. }
  destruct (open_driver (world s)) as [[[]|e] w1] eqn:Hopen.
  2:{ eexists _, _, []. rewrite (scrape_chunk_open_fails _ _ _ _ Hne Hopen).
      rewrite app_nil_r. repeat split. right. right. by eauto. }
  destruct (setup w1) as [[[]|e] w2] eqn:Hsetup.
  2:{ eexists _, _, _.
      rewrite (scrape_chunk_setup_fails _ _ _ _ _ Hne Hopen Hsetup).
      repeat split. right. right. by eauto. }
  destruct (scrape_chunk_setup_ok _ _ _ _ Hne Hopen Hsetup)
    as (r & s' & mid & -> & Hlog & Hmid & Hr).
  eexists _, _, _. split; [done|]. split; [exact Hlog|].
  destruct Hr as [->| ->]; [left|by right; left].
  rewrite !tables_in_app. simpl. by rewrite app_nil_r.
Qed.

End ChunkFacts.

(** C7, as the code has it. Once a worker has opened its driver for a
    non-empty chunk, the driver is quit exactly once, as the last thing
    the worker does, however the worker ends. A failure of the set-up is
    raised again by the worker after the quit; the worker returns a
    batch only when the set-up went through. The parallel branch of
    [main] counts a worker that ended with an [Exception] as having no
    records. *)
Theorem driver_quit_once {W : Type} `{Browser W} (excluded_codes : list str)
    (chunk : list str) (s : session W) (w1 : W) :
  chunk <> [] ->
  open_driver (world s) = (Ok tt, w1) ->
  exists r s' mid,
    scrape_chunk excluded_codes chunk s = (r, s')
    /\ log s' = log s ++ [EvCreate] ++ mid ++ [EvQuit]
    /\ Forall item_event mid
    /\ (forall e w2, setup w1 = (Raise e, w2) -> r = Raise e /\ mid = [])
    /\ (forall w2, setup w1 = (Ok tt, w2) ->
        (exists entries, r = Ok entries) \/ r = Raise NonException)
    /\ (forall e i all_entries rest,
        r = Raise e -> is_Exception e = true ->
        gather all_entries ((i, r) :: rest) = gather all_entries rest).
Proof.
  intros Hne Hopen.
  assert (forall (r : result (list ders_entry)) e i all_entries rest,
             r = Raise e -> is_Exception e = true ->
             gather all_entries ((i, r) :: rest) = gather all_entries rest)
    as Hgather.
  { intros r e i all_entries rest -> He. simpl. by rewrite He. }
  destruct (setup w1) as [[[]|e] w2] eqn:Hsetup.
  - destruct (scrape_chunk_setup_ok excluded_codes _ _ _ _ Hne Hopen Hsetup)
      as (r & s' & mid & Hrun & Hlog & Hmid & Hr).
    exists r, s', mid. do 3 (split; [done|]). split; [|split].
    + intros e w2' [=].
    + intros w2' _. destruct Hr as [->| ->]; eauto.
    + apply Hgather.
  - eexists _, _, [].
    rewrite (scrape_chunk_setup_fails excluded_codes _ _ _ _ _
               Hne Hopen Hsetup).
    do 2 (split; [done|]). split; [constructor|]. split; [|split].
    + by intros e' w2' [= <- _].
    + intros w2' [=].
    + apply Hgather.
Qed.

(** C7 on the scripted browser whose set-up fails. *)
Lemma driver_quit_once_witness :
  let w := {| opens := []; setups := [Raise WebDriverError]; selects := [];
              clicks := []; reads := [] |} in
  exists r s' mid,
    scrape_chunk [] [lit "AKM"] (new_session w) = (r, s')
    /\ log s' = [EvCreate] ++ mid ++ [EvQuit].
Proof.
  intros w.
  destruct (driver_quit_once [] [lit "AKM"] (new_session w) w)
    as (r & s' & mid & Hrun & Hlog & _).
  - discriminate.
  - reflexivity.
  - exists r, s', mid. split; [exact Hrun|exact Hlog].
Defined.

(** C7 as stated fails: with a set-up that raises, the worker does not
    return a batch, it raises. *)
Lemma setup_failure_is_raised :
  let w := {| opens := []; setups := [Raise WebDriverError]; selects := [];
              clicks := []; reads := [] |} in
  (scrape_chunk [] [lit "AKM"] (new_session w)).1 = Raise WebDriverError
  /\ ~ (exists entries,
          (scrape_chunk [] [lit "AKM"] (new_session w)).1 = Ok entries).
Proof.
  intros w. split; [reflexivity|]. intros [entries Hret]. discriminate Hret.
Qed.

(** ** The order of the sort keys *)

Section KeyOrder.

Lemma compare_refl a : Text.compare a a = Eq.
Proof. induction a as [|x a IH]; simpl; [done|]. by rewrite N.compare_refl. Qed.

Lemma compare_eq a b : Text.compare a b = Eq -> a = b.
Proof.
  revert b. induction a as [|x a IH]; intros [|y b]; simpl; try done.
  destruct (N.compare_spec x y) as [->| |]; try done.
  intros Hab. by rewrite (IH b Hab).
Qed.

Lemma compare_antisym a b :
  Text.compare b a = CompOpp (Text.compare a b).
Proof.
  revert b. induction a as [|x a IH]; intros [|y b]; simpl; try done.
  rewrite (N.compare_antisym x y).
  destruct (x ?= y)%N; simpl; [apply IH|done..].
Qed.

Lemma compare_lt_trans a b c :
  Text.compare a b = Lt -> Text.compare b c = Lt -> Text.compare a c = Lt.
Proof.
  revert b c. induction a as [|x a IH]; intros [|y b] [|z c]; simpl;
    try done.
  destruct (N.compare_spec x y) as [->|Hxy|Hxy]; try done.
  - destruct (N.compare_spec y z); try done. apply IH.
  - intros _. destruct (N.compare_spec y z) as [->|Hyz|Hyz]; try done.
    + intros _. by apply N.compare_lt_iff in Hxy as ->.
    + intros _. assert (x < z)%N as Hxz by lia.
      by apply N.compare_lt_iff in Hxz as ->.
Qed.

Lemma key_ltb_compare a b : key_ltb a b = true <-> key_compare a b = Lt.
Proof.
  unfold key_ltb, key_compare, Text.ltb.
  destruct (Text.compare a.1 b.1); [|done..].
  by destruct (Text.compare a.2 b.2).
Qed.

Lemma key_compare_refl a : key_compare a a = Eq.
Proof. unfold key_compare. by rewrite !compare_refl. Qed.

Lemma key_compare_eq a b : key_compare a b = Eq -> a = b.
Proof.
  unfold key_compare. destruct a as [a1 a2], b as [b1 b2]; simpl.
  destruct (Text.compare a1 b1) eqn:H1; try done.
  intros H2. by rewrite (compare_eq _ _ H1), (compare_eq _ _ H2).
Qed.

Lemma key_compare_antisym a b : key_compare b a = CompOpp (key_compare a b).
Proof.
  unfold key_compare. rewrite (compare_antisym a.1 b.1).
  destruct (Text.compare a.1 b.1); simpl; [apply compare_antisym|done..].
Qed.

Lemma key_compare_lt_trans a b c :
  key_compare a b = Lt -> key_compare b c = Lt -> key_compare a c = Lt.
Proof.
  unfold key_compare.
  destruct (Text.compare a.1 b.1) eqn:Hab; try done.
  - apply compare_eq in Hab as ->.
    destruct (Text.compare b.1 c.1); try done. apply compare_lt_trans.
  - intros _. destruct (Text.compare b.1 c.1) eqn:Hbc; try done.
    + apply compare_eq in Hbc as <-. by rewrite Hab.
    + intros _. by rewrite (compare_lt_trans _ _ _ Hab Hbc).
Qed.

Lemma key_le_compare e1 e2 :
  key_le e1 e2 <-> key_compare (sort_key e1) (sort_key e2) <> Gt.
Proof.
  unfold key_le. rewrite <- not_true_iff_false, key_ltb_compare.
  rewrite (key_compare_antisym (sort_key e1) (sort_key e2)).
  by destruct (key_compare (sort_key e1) (sort_key e2)).
Qed.

Lemma key_lt_le e1 e2 :
  key_ltb (sort_key e1) (sort_key e2) = true -> key_le e1 e2.
Proof.
  rewrite key_ltb_compare, key_le_compare. by intros ->.
Qed.

Lemma key_lt_ne e1 e2 :
  key_ltb (sort_key e1) (sort_key e2) = true -> sort_key e1 <> sort_key e2.
Proof.
  rewrite key_ltb_compare. intros Hlt Heq.
  by rewrite Heq, key_compare_refl in Hlt.
Qed.

#[local] Instance key_le_trans : Transitive key_le.
Proof.
  intros a b c. rewrite !key_le_compare.
  destruct (key_compare (sort_key a) (sort_key b)) eqn:Hab; try done.
  - apply key_compare_eq in Hab. by rewrite Hab.
  - destruct (key_compare (sort_key b) (sort_key c)) eqn:Hbc; try done.
    + apply key_compare_eq in Hbc. by rewrite <- Hbc, Hab.
    + by rewrite (key_compare_lt_trans _ _ _ Hab Hbc).
Qed.

Lemma key_le_antisym e1 e2 :
  key_le e1 e2 -> key_le e2 e1 -> sort_key e1 = sort_key e2.
Proof.
  rewrite !key_le_compare.
  rewrite (key_compare_antisym (sort_key e1) (sort_key e2)).
  destruct (key_compare (sort_key e1) (sort_key e2)) eqn:Hc; try done.
  intros _ _. by apply key_compare_eq.
Qed.

End KeyOrder.

(** ** The sort *)

Section SortFacts.

Existing Instance key_le_trans.

Lemma insert_by_key_perm e l : insert_by_key e l ≡ₚ e :: l.
Proof.
  induction l as [|y l IH]; simpl; [done|].
  destruct (key_ltb (sort_key y) (sort_key e)); [|done].
  rewrite IH. apply Permutation_swap.
Qed.

Lemma sort_by_key_perm l : sort_by_key l ≡ₚ l.
Proof.
  induction l as [|e l IH]; simpl; [done|].
  unfold sort_by_key in IH. by rewrite insert_by_key_perm, IH.
Qed.

Lemma insert_by_key_sorted e l :
  StronglySorted key_le l -> StronglySorted key_le (insert_by_key e l).
Proof.
  induction 1 as [|y l Hl IH Hy]; simpl.
  - by repeat constructor.
  - destruct (key_ltb (sort_key y) (sort_key e)) eqn:Hlt.
    + constructor; [done|].
      rewrite insert_by_key_perm. constructor; [|done].
      by apply key_lt_le.
    + constructor; [by constructor|].
      constructor; [exact Hlt|].
      eapply Forall_impl; [exact Hy|].
      intros z Hz. by transitivity y.
Qed.

Lemma sort_by_key_sorted l : StronglySorted key_le (sort_by_key l).
Proof.
  induction l as [|e l IH]; simpl; [constructor|].
  by apply insert_by_key_sorted.
Qed.

Lemma insert_by_key_with_key k e l :
  with_key k (insert_by_key e l) = with_key k (e :: l).
Proof.
  unfold with_key. induction l as [|y l IH]; simpl; [done|].
  destruct (key_ltb (sort_key y) (sort_key e)) eqn:Hlt; [|done].
  rewrite filter_cons, IH, !filter_cons.
  destruct (decide (sort_key e = k)) as [He|He];
    destruct (decide (sort_key y = k)) as [Hy|Hy]; try done.
  apply key_lt_ne in Hlt. congruence.
Qed.

(** The sort is stable: records with one key keep their order. *)
Lemma sort_by_key_stable k l : with_key k (sort_by_key l) = with_key k l.
Proof.
  induction l as [|e l IH]; simpl; [done|].
  rewrite insert_by_key_with_key. unfold with_key in *.
  by rewrite !filter_cons, IH.
Qed.

(** A sorted list is determined by its records key by key, so every
    stable sort gives the list that [sort_by_key] gives. *)
Lemma stable_sort_unique l1 l2 :
  StronglySorted key_le l1 -> StronglySorted key_le l2 ->
  (forall k, with_key k l1 = with_key k l2) -> l1 = l2.
Proof.
  intros H1. revert l2.
  induction H1 as [|a l1 Hl1 IH Ha]; intros l2 H2 Hk.
  - destruct l2 as [|b l2]; [done|].
    specialize (Hk (sort_key b)). unfold with_key in Hk.
    rewrite filter_nil, filter_cons, decide_True in Hk by done. done.
  - destruct H2 as [|b l2 Hl2 Hb].
    { specialize (Hk (sort_key a)). unfold with_key in Hk.
      rewrite filter_nil, filter_cons, decide_True in Hk by done. done. }
    assert (sort_key a = sort_key b) as Hab.
    { apply key_le_antisym.
      - assert (b ∈ a :: l1) as Hin.
        { pose proof (Hk (sort_key b)) as Hkb. unfold with_key in Hkb.
          rewrite (filter_cons _ b), decide_True in Hkb by done.
          assert (b ∈ filter (fun e => sort_key e = sort_key b) (a :: l1))
            as Hbin by (rewrite Hkb; left).
          by apply list_elem_of_filter in Hbin as [_ ?]. }
        apply elem_of_cons in Hin as [->|Hin]; [by apply key_le_compare;
          rewrite key_compare_refl|].
        by eapply Forall_forall in Ha.
      - assert (a ∈ b :: l2) as Hin.
        { pose proof (Hk (sort_key a)) as Hka. unfold with_key in Hka.
          rewrite (filter_cons _ a), decide_True in Hka by done.
          assert (a ∈ filter (fun e => sort_key e = sort_key a) (b :: l2))
            as Hain by (rewrite <- Hka; left).
          by apply list_elem_of_filter in Hain as [_ ?]. }
        apply elem_of_cons in Hin as [->|Hin]; [by apply key_le_compare;
          rewrite key_compare_refl|].
        by eapply Forall_forall in Hb. }
    pose proof (Hk (sort_key a)) as Hka. unfold with_key in Hka.
    rewrite !filter_cons, decide_True, (decide_True _ _ (eq_sym Hab))
      in Hka by done.
    injection Hka as -> _. f_equal. apply IH; [done|].
    intros k. specialize (Hk k). unfold with_key in *.
    rewrite !filter_cons in Hk. destruct (decide (sort_key b = k)); [|done].
    by injection Hk.
Qed.

Lemma written_rows_sort l : written_rows l = sort_by_key l.
Proof. by destruct l. Qed.

End SortFacts.

Lemma strongly_sorted_lookup {A} (R : A -> A -> Prop) (l : list A) i j x y :
  StronglySorted R l -> i < j -> l !! i = Some x -> l !! j = Some y -> R x y.
Proof.
  intros Hl. revert i j. induction Hl as [|a l Hl IH Ha]; intros i j Hij.
  - done.
  - destruct j as [|j]; [lia|]. destruct i as [|i]; simpl.
    + intros [= <-] Hy. eapply Forall_forall in Ha; [exact Ha|].
      by eapply list_elem_of_lookup_2.
    + apply IH. lia.
Qed.

(** C9. The rows written are ordered by comparing the texts of Kod and
    CRN character by character: of two written records with the same
    Kod, the one whose CRN text is smaller stands first. As texts,
    "100" is smaller than "20". *)
Theorem crn_compared_as_text (all_entries : list ders_entry) (i j : nat)
    (e1 e2 : ders_entry) :
  written_rows all_entries !! i = Some e1 ->
  written_rows all_entries !! j = Some e2 ->
  Kod e1 = Kod e2 ->
  Text.ltb (CRN e1) (CRN e2) = true ->
  i < j /\ Text.ltb (lit "100") (lit "20") = true.
Proof.
  rewrite written_rows_sort. intros Hi Hj Hkod Hcrn. split; [|done].
  assert (key_ltb (sort_key e1) (sort_key e2) = true) as Hlt.
  { unfold key_ltb, sort_key. simpl. by rewrite Hkod, compare_refl. }
  destruct (Nat.lt_trichotomy i j) as [Hij|[->|Hji]]; [done|..].
  - rewrite Hi in Hj. injection Hj as ->.
    apply key_lt_ne in Hlt. done.
  - pose proof (strongly_sorted_lookup key_le _ j i e2 e1
                  (sort_by_key_sorted all_entries) Hji Hj Hi) as Hle.
    unfold key_le in Hle. congruence.
Qed.

(** C9 on two records of one course with the CRNs "20" and "100". *)
Lemma crn_compared_as_text_witness :
  let r20 := make_entry (sample_row "20" "AKM 101" "Statik") in
  let r100 := make_entry (sample_row "100" "AKM 101" "Statik") in
  0 < 1 /\ Text.ltb (lit "100") (lit "20") = true.
Proof.
  intros r20 r100.
  apply (crn_compared_as_text [r20; r100] 0 1 r100 r20); reflexivity.
Defined.

(** ** Merging the batches of the workers *)

Section MergeFacts.

Lemma gather_caught all_entries fs :
  Forall caught fs ->
  gather all_entries fs = Ok (all_entries ++ concat (batch_of <$> fs)).
Proof.
  intros Hfs. revert all_entries.
  induction Hfs as [|[i [b|e]] fs Hf _ IH]; intros all_entries; simpl.
  - by rewrite app_nil_r.
  - rewrite IH. unfold batch_of at 2. simpl. by rewrite app_assoc.
  - unfold caught in Hf. simpl in Hf. rewrite Hf. apply IH.
Qed.

Lemma gather_Ok_caught all_entries fs final :
  gather all_entries fs = Ok final -> Forall caught fs.
Proof.
  revert all_entries. induction fs as [|[i [b|e]] fs IH];
    intros all_entries; simpl.
  - constructor.
  - intros Hg. constructor; [done|]. by eapply IH.
  - destruct (is_Exception e) eqn:He; [|done].
    intros Hg. constructor; [done|]. by eapply IH.
Qed.

Lemma with_key_concat k bs :
  with_key k (concat bs) = concat (with_key k <$> bs).
Proof.
  unfold with_key. induction bs as [|b bs IH]; simpl; [done|].
  by rewrite filter_app, IH.
Qed.

Lemma all_same_snoc (x : ders_entry) l :
  Forall (eq x) l -> l ++ [x] = x :: l.
Proof. induction 1 as [|y l <- _ IH]; simpl; [done|]. by rewrite IH. Qed.

Lemma all_same_comm (x : ders_entry) l1 l2 :
  Forall (eq x) l1 -> Forall (eq x) l2 -> l1 ++ l2 = l2 ++ l1.
Proof.
  intros H1 H2. induction H1 as [|y l1 <- _ IH]; simpl.
  - by rewrite app_nil_r.
  - rewrite IH. rewrite (cons_middle x l2 l1), app_assoc.
    by rewrite (all_same_snoc x l2 H2).
Qed.

Lemma with_key_comm k b1 b2 :
  same_key_same_entry b1 b2 ->
  with_key k b1 ++ with_key k b2 = with_key k b2 ++ with_key k b1.
Proof.
  intros Hsame.
  destruct (with_key k b2) as [|x t2] eqn:E2; [by rewrite app_nil_r|].
  destruct (with_key k b1) as [|y t1] eqn:E1; [by rewrite app_nil_r|].
  assert (x ∈ b2 /\ sort_key x = k) as [Hx Hkx].
  { assert (x ∈ with_key k b2) as Hin by (rewrite E2; left).
    apply list_elem_of_filter in Hin. tauto. }
  assert (forall e, e ∈ with_key k b1 -> x = e) as Hb1.
  { intros e Hin. apply list_elem_of_filter in Hin as [He Hin].
    symmetry. apply Hsame; congruence. }
  assert (y ∈ b1 /\ sort_key y = k) as [Hy Hky].
  { assert (y ∈ with_key k b1) as Hin by (rewrite E1; left).
    apply list_elem_of_filter in Hin. tauto. }
  assert (forall e, e ∈ with_key k b2 -> x = e) as Hb2.
  { intros e Hin. apply list_elem_of_filter in Hin as [He Hin].
    rewrite (Hb1 y) by (rewrite E1; left).
    apply Hsame; congruence. }
  rewrite <- E1, <- E2.
  apply (all_same_comm x); by apply Forall_forall.
Qed.

Lemma batches_agree_perm bs bs' :
  bs ≡ₚ bs' -> batches_agree bs -> batches_agree bs'.
Proof.
  intros Hperm Hbs. symmetry in Hperm.
  apply Permutation_inj in Hperm as (_ & f & Hf & Hlook).
  intros i j b1 b2 Hij H1 H2.
  apply (Hbs (f i) (f j)).
  - intros Heq. by apply Hf in Heq.
  - by rewrite <- Hlook.
  - by rewrite <- Hlook.
Qed.

Lemma batches_agree_tail b bs : batches_agree (b :: bs) -> batches_agree bs.
Proof.
  intros Hbs i j b1 b2 Hij H1 H2. apply (Hbs (S i) (S j)); [lia|done..].
Qed.

Lemma with_key_concat_perm k bs bs' :
  bs ≡ₚ bs' -> batches_agree bs ->
  with_key k (concat bs) = with_key k (concat bs').
Proof.
  induction 1 as [|b bs bs' Hperm IH|b1 b2 bs|bs1 bs2 bs3 H12 IH12 H23 IH23];
    intros Hbs.
  - done.
  - rewrite !with_key_concat. simpl. rewrite <- !with_key_concat.
    f_equal. apply IH. by eapply batches_agree_tail.
  - rewrite !with_key_concat. simpl. rewrite !app_assoc. f_equal.
    apply with_key_comm. by apply (Hbs 0 1).
  - rewrite IH12 by done. apply IH23. by eapply batches_agree_perm.
Qed.

Lemma concat_fmap_perm {A B} (f : A -> list B) (l l' : list A) :
  l ≡ₚ l' -> concat (f <$> l) ≡ₚ concat (f <$> l').
Proof.
  induction 1 as [|x l l' _ IH|x y l|l1 l2 l3 _ IH1 _ IH2]; simpl.
  - done.
  - by rewrite IH.
  - rewrite !app_assoc. apply Permutation_app_tail, Permutation_app_comm.
  - by rewrite IH1.
Qed.

(** Two sorted lists with the same records show the same keys, place
    by place. *)
Lemma sorted_perm_same_keys l1 l2 :
  StronglySorted key_le l1 -> StronglySorted key_le l2 -> l1 ≡ₚ l2 ->
  sort_key <$> l1 = sort_key <$> l2.
Proof.
  intros H1 H2 Hperm.
  apply (StronglySorted_unique_strong (fun a b => key_ltb b a = false)).
  - intros a b _ _ Hab Hba.
    apply not_true_iff_false in Hab, Hba.
    rewrite key_ltb_compare in Hab, Hba.
    rewrite (key_compare_antisym a b) in Hab.
    destruct (key_compare a b) eqn:Hc; try done.
    by apply key_compare_eq.
  - by apply (StronglySorted_fmap _ key_le).
  - by apply (StronglySorted_fmap _ key_le).
  - by apply fmap_Permutation.
Qed.

End MergeFacts.

(** C2, as the code has it. When every worker returned or failed with an
    [Exception], [all_entries] is the batches one after the other in the
    order of completion, and the rows written are its stable sort by
    (Kod, CRN): sorted, with the same records, records of one key in the
    order of [all_entries]. This holds for every order of completion.
    Two orders of completion write the same records with the same keys
    at the same places; records of one key stand in the order in which
    their workers finished. The rows written are the same provided that
    records of different batches with the same (Kod, CRN) are the same
    record. *)
Theorem merge_sorted_any_order (fs fs' : list future) :
  fs ≡ₚ fs' ->
  Forall caught fs ->
  exists all_entries all_entries',
    gather [] fs = Ok all_entries
    /\ gather [] fs' = Ok all_entries'
    /\ all_entries = concat (batch_of <$> fs)
    /\ all_entries' = concat (batch_of <$> fs')
    /\ StronglySorted key_le (written_rows all_entries)
    /\ written_rows all_entries ≡ₚ all_entries
    /\ (forall k,
          with_key k (written_rows all_entries) = with_key k all_entries)
    /\ StronglySorted key_le (written_rows all_entries')
    /\ (forall k,
          with_key k (written_rows all_entries') = with_key k all_entries')
    /\ written_rows all_entries' ≡ₚ written_rows all_entries
    /\ sort_key <$> written_rows all_entries'
       = sort_key <$> written_rows all_entries
    /\ (batches_agree (batch_of <$> fs) ->
        written_rows all_entries' = written_rows all_entries).
Proof.
  intros Hperm Hfs.
  assert (Forall caught fs') as Hfs' by (by rewrite <- Hperm).
  exists (concat (batch_of <$> fs)), (concat (batch_of <$> fs')).
  rewrite !gather_caught by done. simpl.
  rewrite !written_rows_sort.
  assert (sort_by_key (concat (batch_of <$> fs'))
          ≡ₚ sort_by_key (concat (batch_of <$> fs))) as Hsame.
  { rewrite !sort_by_key_perm. symmetry. by apply concat_fmap_perm. }
  do 4 (split; [done|]).
  split; [apply sort_by_key_sorted|].
  split; [apply sort_by_key_perm|].
  split; [intros k; apply sort_by_key_stable|].
  split; [apply sort_by_key_sorted|].
  split; [intros k; apply sort_by_key_stable|].
  split; [exact Hsame|].
  split; [apply sorted_perm_same_keys; [apply sort_by_key_sorted..|done]|].
  intros Hagree.
  apply stable_sort_unique; try apply sort_by_key_sorted.
  intros k. rewrite !sort_by_key_stable. symmetry.
  apply with_key_concat_perm; [by apply fmap_Permutation|done].
Qed.

(** C2 on two batches of one record each. *)
Lemma merge_sorted_any_order_witness :
  let a := make_entry (sample_row "10" "AKM 101" "Statik") in
  let b := make_entry (sample_row "5" "BLG 102" "Programlama") in
  written_rows [b; a] = written_rows [a; b].
Proof.
  intros a b.
  destruct (merge_sorted_any_order [(0, Ok [a]); (1, Ok [b])]
              [(1, Ok [b]); (0, Ok [a])])
    as (all_entries & all_entries' & H1 & H2 & _ & _ & _ & _ & _ & _ & _
        & _ & _ & Hsame).
  - apply Permutation_swap.
  - repeat constructor.
  - simpl in H1, H2. injection H1 as <-. injection H2 as <-.
    apply Hsame.
    intros [|[|i]] [|[|j]] b1 b2 Hij; simpl; try done;
      intros [= <-] [= <-] e1 e2 He1 He2;
      apply list_elem_of_singleton in He1 as ->;
      apply list_elem_of_singleton in He2 as ->; vm_compute; discriminate.
Defined.

(** C2 as stated fails: two workers that each return a record with the
    same Kod and CRN but another title. The records come out in the
    order in which the workers finished. *)
Lemma completion_order_shows :
  let a := make_entry (sample_row "10" "AKM 101" "Statik") in
  let b := make_entry (sample_row "10" "AKM 101" "Dinamik") in
  let fs : list future := [(0, Ok [a]); (1, Ok [b])] in
  exists rows rows',
    gather [] fs = Ok rows
    /\ gather [] (reverse fs) = Ok rows'
    /\ written_rows rows = [a; b]
    /\ written_rows rows' = [b; a]
    /\ written_rows rows' <> written_rows rows.
Proof.
  intros a b fs. exists [a; b], [b; a].
  repeat split; try reflexivity. vm_compute. discriminate.
Qed.

(** ** Round-robin chunks *)

Section PartitionFacts.

Context {A : Type}.
Implicit Types (chunks : list (list A)) (pre : list A).

Lemma concat_replicate_nil n : concat (replicate n (@nil A)) = [].
Proof. induction n as [|n IH]; simpl; done. Qed.

Lemma dealt_start n : 0 < n -> dealt (A := A) n [] (replicate n []) 0 0.
Proof.
  intros Hn. unfold dealt. rewrite length_replicate, concat_replicate_nil.
  do 3 (split; [done|]). split; [|done].
  intros j c Hc. apply lookup_replicate in Hc as [-> _]. split.
  - by case_decide; [lia|].
  - done.
Qed.

Lemma concat_alter_snoc chunks i x :
  i < length chunks ->
  concat (alter (fun c => c ++ [x]) i chunks) ≡ₚ concat chunks ++ [x].
Proof.
  revert i. induction chunks as [|c chunks IH]; intros [|i] Hi; simpl in *;
    try lia.
  - rewrite <- !app_assoc. apply Permutation_app_head, Permutation_app_comm.
  - specialize (IH i ltac:(lia)). simpl in IH.
    by rewrite IH, app_assoc.
Qed.

Lemma index_mod n q0 r0 : r0 < n -> (q0 * n + r0) mod n = r0.
Proof.
  intros Hr. rewrite Nat.add_comm, Nat.Div0.mod_add. by apply Nat.mod_small.
Qed.

Lemma dealt_step n pre chunks q0 r0 x :
  dealt n pre chunks q0 r0 ->
  exists q1 r1,
    dealt n (pre ++ [x]) (assign n chunks (length pre, x)) q1 r1.
Proof.
  intros (Hlen & Hr & Hn & Hchunk & Hperm). unfold assign. simpl.
  rewrite Hlen, (index_mod n q0 r0 Hr).
  exists (if decide (r0 + 1 < n) then q0 else q0 + 1),
         (if decide (r0 + 1 < n) then r0 + 1 else 0).
  unfold dealt. rewrite length_app, length_alter. simpl.
  split; [case_decide; lia|]. split; [case_decide; lia|].
  split; [done|]. split.
  - intros j c' Hj. destruct (decide (r0 = j)) as [<-|Hne].
    + rewrite list_lookup_alter_eq in Hj.
      destruct (chunks !! r0) as [c|] eqn:Hc; [|done].
      injection Hj as <-. destruct (Hchunk r0 c Hc) as [Hlc Hq].
      rewrite decide_False in Hlc by lia. split.
      * rewrite length_app. simpl. repeat case_decide; lia.
      * intros q. destruct (lt_eq_lt_dec q q0) as [[Hlt| ->]|Hgt].
        -- rewrite !lookup_app_l by nia. apply Hq.
        -- rewrite Nat.add_0_r in Hlc.
           rewrite (list_lookup_middle c [] x q0) by done.
           by rewrite (list_lookup_middle pre [] x (q0 * n + r0)).
        -- rewrite !lookup_ge_None_2; [done|..];
             rewrite length_app; simpl; nia.
    + rewrite list_lookup_alter_ne in Hj by done.
      destruct (Hchunk j c' Hj) as [Hlc Hq].
      apply lookup_lt_Some in Hj. split.
      * rewrite Hlc. repeat case_decide; lia.
      * intros q. rewrite Hq.
        destruct (lt_eq_lt_dec q q0) as [[Hlt| ->]|Hgt].
        -- by rewrite lookup_app_l by nia.
        -- destruct (decide (j < r0)).
           ++ by rewrite lookup_app_l by lia.
           ++ rewrite !lookup_ge_None_2; [done|..];
                rewrite ?length_app; simpl; lia.
        -- rewrite !lookup_ge_None_2; [done|..];
             rewrite ?length_app; simpl; nia.
  - rewrite concat_alter_snoc by lia. by apply Permutation_app_tail.
Qed.

Lemma dealt_fold n pre chunks q0 r0 items :
  dealt n pre chunks q0 r0 ->
  exists q1 r1,
    dealt n (pre ++ items)
      (fold_left (assign n)
         (imap (fun i x => (length pre + i, x)) items) chunks) q1 r1.
Proof.
  revert pre chunks q0 r0. induction items as [|x items IH];
    intros pre chunks q0 r0 Hd; simpl.
  - rewrite app_nil_r. by eauto.
  - destruct (dealt_step n pre chunks q0 r0 x Hd) as (q1 & r1 & Hd1).
    rewrite Nat.add_0_r.
    destruct (IH _ _ _ _ Hd1) as (q2 & r2 & Hd2).
    exists q2, r2. rewrite <- app_assoc in Hd2. simpl in Hd2.
    erewrite imap_ext; [exact Hd2|].
    intros i y _. simpl. rewrite length_app. simpl. f_equal. lia.
Qed.

Lemma partition_chunks_dealt WORKER_COUNT (items : list A) :
  1 <= length items -> 1 <= WORKER_COUNT ->
  exists q0 r0,
    dealt (min WORKER_COUNT (length items)) items
      (partition_chunks WORKER_COUNT items) q0 r0.
Proof.
  intros HL HW. unfold partition_chunks, enumerate.
  apply (dealt_fold _ [] _ 0 0 items). apply dealt_start. lia.
Qed.

End PartitionFacts.

(** C1. For a list of at least one item and a worker count of at least
    two, with [n] the smaller of the worker count and the number of
    items: there are [n] chunks; item [i] is in chunk [i mod n] (at
    place [i / n]); the sizes of two chunks differ by at most one; no
    chunk is empty; and the chunks together hold exactly the items. *)
Theorem round_robin_partition {A : Type} (WORKER_COUNT : nat)
    (allItems : list A) :
  1 <= length allItems ->
  2 <= WORKER_COUNT ->
  let n := min WORKER_COUNT (length allItems) in
  let chunks := partition_chunks WORKER_COUNT allItems in
  length chunks = n
  /\ (forall i x,
        allItems !! i = Some x ->
        exists c, chunks !! (i mod n) = Some c /\ c !! (i / n) = Some x)
  /\ (forall c1 c2, c1 ∈ chunks -> c2 ∈ chunks -> length c1 <= length c2 + 1)
  /\ Forall (fun c => c <> []) chunks
  /\ concat chunks ≡ₚ allItems.
Proof.
  intros HL HW n chunks.
  destruct (partition_chunks_dealt WORKER_COUNT allItems HL ltac:(lia))
    as (q0 & r0 & Hlen & Hr & Hn & Hchunk & Hperm).
  fold n in Hlen, Hr, Hn, Hchunk. fold chunks in Hn, Hchunk, Hperm.
  assert (0 < n) as Hpos by lia.
  assert (1 <= q0) as Hq0 by (subst n; nia).
  split; [done|]. split; [|split; [|split; [|done]]].
  - intros i x Hi.
    assert (i mod n < length chunks) as Hj
      by (rewrite Hn; apply Nat.mod_upper_bound; lia).
    apply lookup_lt_is_Some in Hj as [c Hc].
    exists c. split; [done|].
    destruct (Hchunk _ _ Hc) as [_ ->]. rewrite <- Hi. f_equal.
    rewrite (Nat.div_mod_eq i n) at 3. lia.
  - intros c1 c2 H1 H2.
    apply list_elem_of_lookup in H1 as [j1 H1].
    apply list_elem_of_lookup in H2 as [j2 H2].
    destruct (Hchunk _ _ H1) as [-> _]. destruct (Hchunk _ _ H2) as [-> _].
    repeat case_decide; lia.
  - apply Forall_forall. intros c Hc ->.
    apply list_elem_of_lookup in Hc as [j Hc].
    destruct (Hchunk _ _ Hc) as [Hl _]. simpl in Hl. lia.
Qed.

(** C1 on eight items and three workers. *)
Lemma round_robin_partition_witness :
  partition_chunks 3 [0; 1; 2; 3; 4; 5; 6; 7] = [[0; 3; 6]; [1; 4; 7]; [2; 5]]
  /\ length (partition_chunks 3 [0; 1; 2; 3; 4; 5; 6; 7]) = 3.
Proof.
  split; [reflexivity|].
  apply (round_robin_partition 3 [0; 1; 2; 3; 4; 5; 6; 7]); simpl; lia.
Defined.

(** ** From the tables read to the rows written *)

Section MainFacts.

Context {W : Type} `{Browser W}.
Variable excluded_codes : list str.
Variable WORKER_COUNT : nat.
Variable worlds : nat -> W.

Local Abbreviation started :=
  (workers_of excluded_codes WORKER_COUNT worlds).

Lemma lookup_seq_all {B} (pre l : list B) :
  omap (fun k => (pre ++ l) !! k) (seq (length pre) (length l)) = l.
Proof.
  revert pre. induction l as [|x l IH]; intros pre; simpl; [done|].
  rewrite list_lookup_middle by done. f_equal.
  specialize (IH (pre ++ [x])). rewrite <- app_assoc, length_app in IH.
  simpl in IH. by rewrite Nat.add_1_r in IH.
Qed.

Lemma as_completed_perm order (fs : list future) :
  order ≡ₚ seq 0 (length fs) -> as_completed order fs ≡ₚ fs.
Proof.
  intros Horder. unfold as_completed. rewrite Horder.
  apply Permutation_refl'. exact (lookup_seq_all [] fs).
Qed.

Lemma as_completed_elem order (fs : list future) f :
  f ∈ as_completed order fs -> f ∈ fs.
Proof.
  intros Hf. apply list_elem_of_omap in Hf as (k & _ & Hk).
  by eapply list_elem_of_lookup_2.
Qed.


(** A worker that [main] does not trip over adds the records of the
    tables it read. *)
Lemma run_worker_batch i chunk :
  let out := run_worker excluded_codes worlds i chunk in
  caught (i, out.1) ->
  batch_of (i, out.1)
  = flat_map (table_entries excluded_codes) (tables_in (log out.2)).
Proof.
  unfold run_worker.
  destruct (scrape_chunk_outcome excluded_codes chunk
              (new_session (worlds i)))
    as (r & s' & evs & -> & Hlog & Hr).
  simpl in *. rewrite Hlog. unfold caught, batch_of. simpl.
  destruct Hr as [->|[->|[[e ->] ->]]]; done.
Qed.

Lemma submit_all_worker chunks (f : worker W) :
  f ∈ submit_all excluded_codes worlds chunks ->
  exists chunk, f = (f.1, run_worker excluded_codes worlds f.1 chunk).
Proof.
  unfold submit_all. intros Hf.
  apply list_elem_of_fmap in Hf as ([i chunk] & -> & _). by exists chunk.
Qed.

Lemma workers_of_worker ders_kodlari (f : worker W) :
  f ∈ started ders_kodlari ->
  exists chunk, f = (f.1, run_worker excluded_codes worlds f.1 chunk).
Proof.
  unfold workers_of. destruct ders_kodlari as [|kod rest].
  { by intros ?%elem_of_nil. }
  destruct (WORKER_COUNT <=? 1).
  - intros ->%list_elem_of_singleton. by eexists.
  - apply submit_all_worker.
Qed.

Lemma worker_batch ders_kodlari (f : worker W) :
  f ∈ started ders_kodlari ->
  caught (f.1, f.2.1) ->
  batch_of (f.1, f.2.1)
  = flat_map (table_entries excluded_codes) (tables_in (log f.2.2)).
Proof.
  intros (chunk & Hf)%workers_of_worker. rewrite Hf. simpl.
  apply run_worker_batch.
Qed.

Lemma batches_tables ders_kodlari (ran : list (worker W)) :
  Forall (fun f => f ∈ started ders_kodlari) ran ->
  Forall caught (futures_of ran) ->
  concat (batch_of <$> futures_of ran)
  = flat_map (table_entries excluded_codes) (tables_read ran).
Proof.
  unfold futures_of, tables_read.
  induction 1 as [|f ran Hf _ IH]; [done|].
  rewrite !fmap_cons. intros [Hc Hrest]%Forall_cons.
  cbn [concat flat_map]. rewrite flat_map_app, (IH Hrest). f_equal.
  by apply (worker_batch ders_kodlari).
Qed.

(** The workers whose results [main] collects, in the order of
    collection: those named by [order] in the parallel branch. *)
Lemma collect_all_tables ders_kodlari order all_entries :
  collect_all excluded_codes WORKER_COUNT worlds ders_kodlari order
  = Ok all_entries ->
  exists ran,
    Forall (fun f => f ∈ started ders_kodlari) ran
    /\ ((1 < WORKER_COUNT ->
         completion_order order (started ders_kodlari)) ->
        ran ≡ₚ started ders_kodlari)
    /\ all_entries
       = flat_map (table_entries excluded_codes) (tables_read ran).
Proof.
  unfold collect_all, workers_of, completion_order.
  destruct ders_kodlari as [|kod rest].
  { intros [= <-]. exists []. by repeat split. }
  destruct (Nat.leb_spec WORKER_COUNT 1) as [Hle|Hgt].
  - intros Hrun.
    exists [(0, run_worker excluded_codes worlds 0 (kod :: rest))].
    split; [repeat constructor|]. split; [done|].
    pose proof (run_worker_batch 0 (kod :: rest)) as Hb.
    cbv zeta in Hb. rewrite Hrun in Hb. unfold tables_read.
    cbn [flat_map fst snd]. rewrite app_nil_r. exact (Hb I).
  - set (ran := submit_all excluded_codes worlds
                  (partition_chunks WORKER_COUNT (kod :: rest))).
    intros Hg. exists (omap (fun k => ran !! k) order).
    assert (as_completed order (futures_of ran)
            = futures_of (omap (fun k => ran !! k) order)) as Heq.
    { unfold as_completed, futures_of. rewrite list_fmap_omap.
      apply list_omap_ext, Forall2_same_length_lookup_2; [done|].
      intros i k k' Hk Hk'. rewrite Hk in Hk'. injection Hk' as <-.
      by rewrite list_lookup_fmap. }
    assert (Forall (fun f => f ∈ ran) (omap (fun k => ran !! k) order))
      as Hin.
    { apply Forall_forall. intros f (k & _ & Hk)%list_elem_of_omap.
      by eapply list_elem_of_lookup_2. }
    split; [|split].
    + eapply Forall_impl; [exact Hin|]. intros f Hf.
      unfold workers_of. simpl.
      by destruct (Nat.leb_spec WORKER_COUNT 1); [lia|].
    + intros Horder. specialize (Horder Hgt).
      destruct (Nat.leb_spec WORKER_COUNT 1); [lia|].
      fold ran in Horder. rewrite Horder.
      apply Permutation_refl'. exact (lookup_seq_all [] ran).
    + rewrite Heq in Hg.
      pose proof (gather_Ok_caught _ _ _ Hg) as Hc.
      rewrite gather_caught in Hg by done. injection Hg as <-.
      apply (batches_tables (kod :: rest)); [|done].
      eapply Forall_impl; [exact Hin|]. intros f Hf.
      unfold workers_of.
      by destruct (Nat.leb_spec WORKER_COUNT 1); [lia|].
Qed.

Lemma main_written ders_kodlari order rows :
  main excluded_codes WORKER_COUNT worlds ders_kodlari order = Ok rows ->
  exists all_entries,
    collect_all excluded_codes WORKER_COUNT worlds ders_kodlari order
    = Ok all_entries
    /\ rows = sort_by_key all_entries.
Proof.
  unfold main.
  destruct (collect_all _ _ _ _ _) as [all_entries|e]; [|done].
  intros [= <-]. exists all_entries. by rewrite written_rows_sort.
Qed.

End MainFacts.

(** C5. A row of fewer than 14 cells adds no record, and the rows after
    it are turned into records as if it were not there: the records of
    the table are those of the rows before it followed by those of the
    rows after it. Reading such a table is not a failure: the read
    returns these records, and nothing is printed. *)
Theorem short_rows_skipped {W : Type} `{Browser W}
    (excluded_codes : list str) (h : row) (before after : table)
    (short : row) :
  length short < 14 ->
  let tbl := h :: before ++ short :: after in
  (forall entries, row_step excluded_codes entries short = entries)
  /\ table_entries excluded_codes tbl
     = table_entries excluded_codes (h :: before)
       ++ table_entries excluded_codes (h :: after)
  /\ (forall kod n s w',
        read_attempt (world s) = (Ok tbl, w') ->
        collect_course_entries excluded_codes kod (S n) s
        = (Ok (table_entries excluded_codes tbl),
           at_log w' (log s ++ [EvTable tbl]))).
Proof.
  intros Hshort tbl. split; [|split].
  - intros entries. by apply row_step_short.
  - unfold tbl. rewrite table_entries_split. f_equal.
    unfold table_entries. simpl. by rewrite row_step_short.
  - intros kod n [w l] w' Hread.
    apply (collect_cleared excluded_codes kod (S n) 0 w w w' tbl l);
      [lia|done|done].
Qed.

(** C5 on a table whose second row has two cells. *)
Lemma short_rows_skipped_witness :
  let good := sample_row "10" "AKM 101" "Statik" in
  let later := sample_row "11" "AKM 102" "Dinamik" in
  table_entries [] ([header; good] ++ [lit "x"; lit "y"] :: [later])
  = [make_entry good; make_entry later].
Proof.
  intros good later.
  apply (proj1 (proj2 (short_rows_skipped (W := script) []
                         header [good] [later] [lit "x"; lit "y"]
                         ltac:(simpl; lia)))).
Defined.

(** C6. For any list of excluded codes, no record whose Kod is in the
    list is among the records of a table, among the records a worker
    returns, or among the rows that [main] writes. *)
Theorem excluded_never_output {W : Type} `{Browser W}
    (excluded_codes : list str) :
  (forall tbl,
      Forall (fun e => Kod e ∉ excluded_codes)
        (table_entries excluded_codes tbl))
  /\ (forall chunk (s s' : session W) entries,
        scrape_chunk excluded_codes chunk s = (Ok entries, s') ->
        Forall (fun e => Kod e ∉ excluded_codes) entries)
  /\ (forall WORKER_COUNT worlds ders_kodlari order rows,
        main excluded_codes WORKER_COUNT worlds ders_kodlari order = Ok rows ->
        Forall (fun e => Kod e ∉ excluded_codes) rows).
Proof.
  assert (forall tbls,
             Forall (fun e => Kod e ∉ excluded_codes)
               (flat_map (table_entries excluded_codes) tbls)) as Hall.
  { intros tbls. induction tbls as [|t tbls IH]; simpl; [constructor|].
    apply Forall_app. split; [apply table_entries_not_excluded|done]. }
  split; [apply table_entries_not_excluded|]. split.
  - intros chunk s s' entries Hrun.
    destruct (scrape_chunk_outcome excluded_codes chunk s)
      as (r & s1 & evs & Hrun' & _ & Hr).
    rewrite Hrun in Hrun'. injection Hrun' as <- <-.
    destruct Hr as [[= ->]|[[=]|[[e [=]] _]]]. apply Hall.
  - intros WORKER_COUNT worlds ders_kodlari order rows Hmain.
    apply main_written in Hmain as (all_entries & Hcollect & ->).
    apply collect_all_tables in Hcollect as (ran & _ & _ & ->).
    rewrite sort_by_key_perm. apply Hall.
Qed.

(** C6 on a run with "AKM 101" excluded and two rows of that code. *)
Lemma excluded_never_output_witness :
  let w := {| opens := []; setups := []; selects := []; clicks := [];
              reads := [Ok [header;
                            sample_row "10" "AKM 101" "Statik";
                            sample_row "11" "AKM 101" "Statik";
                            sample_row "12" "AKM 102" "Dinamik"]] |} in
  Forall (fun e => Kod e ∉ [lit "AKM 101"])
    [make_entry (sample_row "12" "AKM 102" "Dinamik")].
Proof.
  intros w.
  apply (proj2 (proj2 (excluded_never_output [lit "AKM 101"]))
           1 (fun _ => w) [lit "AKM"] []).
  reflexivity.
Defined.



(** ** Two runs on the scripted browser *)

(** Two codes and one worker; the browser shows two rows for the first
    code and one for the second. The file gets three rows, by code and
    then by CRN. *)
Example one_worker_two_codes :
  let w := {| opens := []; setups := []; selects := []; clicks := [];
              reads := [Ok [header;
                            sample_row "11" "AKM101" "Statik";
                            sample_row "10" "AKM101" "Statik"];
                        Ok [header; sample_row "5" "BLG102" "Giris"]] |} in
  main [] 1 (fun _ => w) [lit "AKM101"; lit "BLG102"] []
  = Ok (make_entry
          <$> [sample_row "10" "AKM101" "Statik";
               sample_row "11" "AKM101" "Statik";
               sample_row "5" "BLG102" "Giris"]).
Proof. reflexivity. Qed.

(** Four stale selections in a row: three use up the first code, the
    fourth is absorbed by the second code, whose table is then read. *)
Example four_stale_selections :
  let w := {| opens := []; setups := [];
              selects := [stale; stale; stale; stale]; clicks := [];
              reads := [Ok [header; sample_row "5" "BLG102" "Giris"]] |} in
  let out := scrape_chunk [] [lit "AKM101"; lit "BLG102"] (new_session w) in
  out.1 = Ok [make_entry (sample_row "5" "BLG102" "Giris")]
  /\ log out.2
     = [EvCreate;
        EvPrint (MsgSelectStale (lit "AKM101"));
        EvTable [header; sample_row "5" "BLG102" "Giris"];
        EvPrint (MsgFetched (lit "BLG102"));
        EvQuit].
Proof. split; reflexivity. Qed.

(** * Further properties *)

(** ** clean_text, continued *)

Section CleanTextMore.

Lemma lstrip_nil_iff s :
  lstrip s = [] <-> Forall (fun c => isspace c = true) s.
Proof.
  induction s as [|a s IH]; simpl; [by split; [constructor|]|].
  destruct (isspace a) eqn:E.
  - rewrite IH. split; [by constructor|by inversion 1].
  - split; [done|]. inversion 1; congruence.
Qed.

Lemma strip_nil_iff s :
  strip s = [] <-> Forall (fun c => isspace c = true) s.
Proof.
  rewrite <- lstrip_nil_iff. unfold strip, rstrip. split.
  - intros Hs. apply (f_equal reverse) in Hs.
    rewrite reverse_involutive, reverse_nil in Hs.
    destruct (lstrip s) as [|a t] eqn:Ht; [done|].
    pose proof (lstrip_head_not_space _ _ _ Ht) as Ha.
    apply lstrip_nil_iff in Hs. rewrite Forall_reverse in Hs.
    inversion Hs; congruence.
  - by intros ->.
Qed.

Lemma replace_nil_iff old new s :
  new <> [] -> replace old new s = [] <-> s = [].
Proof.
  intros Hnew. destruct s as [|a s]; simpl; [done|]. split; [|done].
  destruct (a =? old)%N; [|done]. by destruct new.
Qed.

Lemma replace_elem old new s c :
  c <> old ->
  c ∈ replace old new s <-> c ∈ s \/ (c ∈ new /\ old ∈ s).
Proof.
  intros Hc. induction s as [|a s IH]; simpl.
  - rewrite !elem_of_nil. tauto.
  - rewrite elem_of_app, IH, !elem_of_cons.
    destruct (N.eqb_spec a old) as [->|Ha].
    + split; [|tauto]. intros [?|[?|[? ?]]]; tauto.
    + rewrite list_elem_of_singleton. split; [tauto|].
      intros [[?|?]|[? [?|?]]]; try tauto. congruence.
Qed.

Lemma clean_text_normal_form s : normal (clean_text s).
Proof.
  destruct (strip_clean s) as [H1 H2]. unfold clean_text. split; [|split].
  - by apply replace_starts_clean.
  - by apply replace_ends_clean.
  - apply replace_removes. repeat constructor; discriminate.
Qed.

End CleanTextMore.

(** X1. What [clean_text] returns has no white space at either end and
    no line feed, and the texts that [clean_text] leaves as they are
    are exactly the texts of that form. *)
Theorem clean_text_normal (s : str) :
  normal (clean_text s) /\ (clean_text s = s <-> normal s).
Proof.
  split; [apply clean_text_normal_form|]. split.
  - intros <-. apply clean_text_normal_form.
  - intros (H1 & H2 & H3). by apply clean_text_fixed.
Qed.

(** X1 on a text that is already clean. *)
Lemma clean_text_normal_witness : clean_text (lit "AKM 101") = lit "AKM 101".
Proof.
  apply (proj2 (proj2 (clean_text_normal (lit "AKM 101")))).
  split; [|split].
  - intros c [= <-]. reflexivity.
  - intros c [= <-]. reflexivity.
  - repeat constructor; discriminate.
Defined.

(** X2. [clean_text] gives the empty text exactly for the texts made of
    white space only (the empty text among them). *)
Theorem clean_text_blank (s : str) :
  clean_text s = [] <-> Forall (fun c => isspace c = true) s.
Proof.
  unfold clean_text. rewrite replace_nil_iff by discriminate.
  apply strip_nil_iff.
Qed.

(** X2 on a text of a space, a tab and a line feed. *)
Lemma clean_text_blank_witness : clean_text [32; 9; 10]%N = [].
Proof.
  apply (proj2 (clean_text_blank [32; 9; 10]%N)).
  repeat constructor.
Defined.

(** X3. Apart from the line feed, a character is in [clean_text s]
    exactly when it is in the stripped text, or is one of the characters
    of " / " and the stripped text has a line feed. So a carriage return
    or a tab inside the text stays. *)
Theorem clean_text_keeps (s : str) (c : char) :
  c <> newline ->
  c ∈ clean_text s
  <-> c ∈ strip s \/ (c ∈ lit " / " /\ newline ∈ strip s).
Proof. intros Hc. unfold clean_text. by apply replace_elem. Qed.

(** X3 on a text with a carriage return and a line feed in the middle. *)
Lemma clean_text_keeps_witness :
  13%N ∈ clean_text [97; 13; 10; 98]%N
  /\ clean_text [97; 13; 10; 98]%N = [97; 13; 32; 47; 32; 98]%N.
Proof.
  split; [|reflexivity].
  apply (proj2 (clean_text_keeps [97; 13; 10; 98]%N 13%N ltac:(discriminate))).
  left. assert (strip [97; 13; 10; 98]%N = [97; 13; 10; 98]%N) as ->
    by reflexivity.
  rewrite !elem_of_cons. tauto.
Defined.

(** ** Records, continued *)

(** Proves [normal] of a literal text. *)
Ltac normal_literal :=
  split; [|split];
  [ intros ? [= <-]; reflexivity
  | intros ? [= <-]; reflexivity
  | repeat constructor; discriminate ].

(** Shows the fields of [make_entry cells] in the goal. *)
Ltac open_entry :=
  cbv zeta; unfold make_entry;
  cbn [Kod Ders Ogretim_Yontemi Egitmen Gun Saat Bina Kayitli Kontenjan
       Bolum_Sinirlamasi CRN].

Section EntryFacts.

Lemma mode_normal cells : normal (map_ogretim_yontemi cells).
Proof.
  unfold map_ogretim_yontemi. repeat case_decide.
  - normal_literal.
  - normal_literal.
  - apply clean_text_normal_form.
Qed.

Lemma normal_no_newline s : normal s -> Forall (fun c => c <> newline) s.
Proof. by intros (_ & _ & ?). Qed.

Lemma normal_head s c : normal s -> head s = Some c -> isspace c = false.
Proof. intros (H1 & _ & _). apply H1. Qed.

Lemma normal_last s c : normal s -> last s = Some c -> isspace c = false.
Proof. intros (_ & H2 & _). apply H2. Qed.

End EntryFacts.

(** X4. In the record of any row, every field but Bina is a text
    without white space at its ends and without line feed. Bina is two
    such texts with " / " between them, so it is never empty, and it has
    no line feed either. *)
Theorem entry_fields_normal (cells : row) :
  let e := make_entry cells in
  Forall normal
    [Kod e; Ders e; Ogretim_Yontemi e; Egitmen e; Gun e; Saat e;
     Kayitli e; Kontenjan e; Bolum_Sinirlamasi e; CRN e]
  /\ (exists a b, Bina e = a ++ lit " / " ++ b /\ normal a /\ normal b)
  /\ Forall (fun c => c <> newline) (Bina e)
  /\ Bina e <> [].
Proof.
  open_entry. split; [|split; [|split]].
  - repeat constructor;
      first [apply clean_text_normal_form | apply mode_normal].
  - eexists _, _. split; [reflexivity|].
    split; apply clean_text_normal_form.
  - rewrite !Forall_app. split; [|split].
    + apply normal_no_newline, clean_text_normal_form.
    + repeat constructor; discriminate.
    + apply normal_no_newline, clean_text_normal_form.
  - by destruct (clean_text (cell cells 5)).
Qed.

(** X5. Bina itself need not be in that form: when the first location
    cell is blank Bina begins with a space, when the second one is blank
    it ends with a space, and cleaning Bina again would change it. *)
Theorem bina_blank_location (cells : row) :
  let e := make_entry cells in
  (Forall (fun c => isspace c = true) (cell cells 5) ->
   head (Bina e) = Some 32%N /\ clean_text (Bina e) <> Bina e)
  /\ (Forall (fun c => isspace c = true) (cell cells 8) ->
      last (Bina e) = Some 32%N /\ clean_text (Bina e) <> Bina e).
Proof.
  open_entry. split.
  - intros Hblank. apply strip_nil_iff in Hblank.
    assert (clean_text (cell cells 5) = []) as ->
      by (unfold clean_text; by rewrite Hblank).
    split; [done|]. intros Hfix.
    pose proof (clean_text_normal_form
                  ([] ++ lit " / " ++ clean_text (cell cells 8))) as Hn.
    rewrite Hfix in Hn. by pose proof (normal_head _ _ Hn eq_refl).
  - intros Hblank. apply strip_nil_iff in Hblank.
    assert (clean_text (cell cells 8) = []) as ->
      by (unfold clean_text; by rewrite Hblank).
    assert (last (clean_text (cell cells 5) ++ lit " / " ++ []) = Some 32%N)
      as Hlast.
    { change (lit " / " ++ []) with ([32; 47]%N ++ [32%N]).
      by rewrite app_assoc, last_snoc. }
    split; [done|]. intros Hfix.
    pose proof (clean_text_normal_form
                  (clean_text (cell cells 5) ++ lit " / " ++ [])) as Hn.
    rewrite Hfix in Hn. by pose proof (normal_last _ _ Hn Hlast).
Qed.

(** X5 on a row whose first location cell is empty. *)
Lemma bina_blank_location_witness :
  let cells := [lit "10"; lit "AKM 101"; lit "Statik"; lit "-"; lit "-"; [];
                lit "Sali"; lit "0830"; lit "D101"]
               ++ replicate 5 (lit "-") in
  head (Bina (make_entry cells)) = Some 32%N
  /\ clean_text (Bina (make_entry cells)) <> Bina (make_entry cells).
Proof.
  intros cells. apply (proj1 (bina_blank_location cells)). constructor.
Defined.

(** X6. The delivery mode of a record is never one of the two long
    labels of the page. *)
Theorem mode_never_long (cells : row) :
  Ogretim_Yontemi (make_entry cells) <> fiziksel_raw
  /\ Ogretim_Yontemi (make_entry cells) <> sanal_raw.
Proof.
  open_entry. unfold map_ogretim_yontemi.
  repeat case_decide; split; try done; vm_compute; discriminate.
Qed.

(** ** Exceptions that are not stale answers *)

Section BreakFacts.

Context {W : Type} `{Browser W}.
Variable excluded_codes : list str.

Lemma select_broken kod n k w w1 w' e l :
  e <> StaleElementReferenceException ->
  k < n -> stale_run (select_attempt kod) k w w1 ->
  select_attempt kod w1 = (Raise e, w') ->
  select_course_code kod n (at_log w l) = (Raise e, at_log w' l).
Proof.
  intros He. revert n w.
  induction k as [|k IH]; intros [|n] w Hk; try lia; simpl.
  - intros -> Hop. run_attempt Hop. by destruct e.
  - intros (w2 & Hop & Hrun) Hbad. run_attempt Hop.
    apply IH; [lia|done..].
Qed.

Lemma click_broken n k w w1 w' e l :
  e <> StaleElementReferenceException ->
  k < n -> stale_run click_attempt k w w1 ->
  click_attempt w1 = (Raise e, w') ->
  click_goster n (at_log w l) = (Raise e, at_log w' l).
Proof.
  intros He. revert n w.
  induction k as [|k IH]; intros [|n] w Hk; try lia; simpl.
  - intros -> Hop. run_attempt Hop. by destruct e.
  - intros (w2 & Hop & Hrun) Hbad. run_attempt Hop.
    apply IH; [lia|done..].
Qed.

Lemma collect_broken kod n k w w1 w' e l :
  e <> StaleElementReferenceException ->
  k < n -> stale_run read_attempt k w w1 ->
  read_attempt w1 = (Raise e, w') ->
  collect_course_entries excluded_codes kod n (at_log w l)
  = (Raise e, at_log w' l).
Proof.
  intros He. revert n w.
  induction k as [|k IH]; intros [|n] w Hk; try lia; simpl.
  - intros -> Hop. run_attempt Hop. by destruct e.
  - intros (w2 & Hop & Hrun) Hbad. run_attempt Hop.
    apply IH; [lia|done..].
Qed.

(** The body of the [try] of one item ends with [e]. *)
Lemma scrape_item_broken kod entries w w' e l :
  e <> StaleElementReferenceException ->
  item_breaks kod w e w' ->
  scrape_item excluded_codes kod entries (at_log w l)
  = if is_Exception e
    then (Ok entries, at_log w' (l ++ [EvPrint (MsgItemError kod)]))
    else (Raise e, at_log w' l).
Proof.
  intros He Hcase. unfold scrape_item, try_except_Exception, bind.
  destruct Hcase as [(k & w0 & Hk & Hrun & Hbad)
                    |[(w1 & (k1 & w0 & Hk1 & Hrun1 & Hok1)
                          & (k & w0' & Hk & Hrun & Hbad))
                     |(w1 & w2 & (k1 & w0 & Hk1 & Hrun1 & Hok1)
                          & (k2 & w0' & Hk2 & Hrun2 & Hok2)
                          & (k & w0'' & Hk & Hrun & Hbad))]].
  - rewrite (select_broken _ _ _ _ _ _ _ l He Hk Hrun Hbad).
    by destruct (is_Exception e).
  - rewrite (select_cleared _ _ _ _ _ _ l Hk1 Hrun1 Hok1). cbn [negb].
    rewrite (click_broken _ _ _ _ _ _ l He Hk Hrun Hbad).
    by destruct (is_Exception e).
  - rewrite (select_cleared _ _ _ _ _ _ l Hk1 Hrun1 Hok1). cbn [negb].
    rewrite (click_cleared _ _ _ _ _ l Hk2 Hrun2 Hok2). cbn [negb].
    rewrite (collect_broken _ _ _ _ _ _ _ l He Hk Hrun Hbad).
    by destruct (is_Exception e).
Qed.

Lemma select_never_stale kod n s :
  (select_course_code kod n s).1 <> Raise StaleElementReferenceException.
Proof.
  revert s. induction n as [|n IH]; intros [w l]; simpl; [done|].
  unfold try_except_stale, bind, call, ret; simpl.
  destruct (select_attempt kod w) as [[[]|[]] w1]; simpl;
    first [done | apply IH].
Qed.

Lemma click_never_stale n s :
  (click_goster n s).1 <> Raise StaleElementReferenceException.
Proof.
  revert s. induction n as [|n IH]; intros [w l]; simpl; [done|].
  unfold try_except_stale, bind, call, ret; simpl.
  destruct (click_attempt w) as [[[]|[]] w1]; simpl;
    first [done | apply IH].
Qed.

Lemma collect_never_stale kod n s :
  (collect_course_entries excluded_codes kod n s).1
  <> Raise StaleElementReferenceException.
Proof.
  revert s. induction n as [|n IH]; intros [w l]; simpl; [done|].
  unfold try_except_stale, read_table, bind, call, emit, ret; simpl.
  destruct (read_attempt w) as [[rows|[]] w1]; simpl;
    first [done | apply IH].
Qed.

End BreakFacts.

(** X7. When a phase of an item raises an [Exception] other than a
    stale answer, that phase is not tried again and the later phases
    are not run: the item adds nothing, one line with the code is
    printed, and the loop goes on with the next code. *)
Theorem item_error_skips {W : Type} `{Browser W} (excluded_codes : list str)
    (kod : str) (rest : list str) (entries : list ders_entry)
    (s : session W) (e : exn) (w' : W) :
  e <> StaleElementReferenceException ->
  is_Exception e = true ->
  item_breaks kod (world s) e w' ->
  let s' := at_log w' (log s ++ [EvPrint (MsgItemError kod)]) in
  scrape_item excluded_codes kod entries s = (Ok entries, s')
  /\ scrape_loop excluded_codes (kod :: rest) entries s
     = scrape_loop excluded_codes rest entries s'.
Proof.
  destruct s as [w l]. simpl. intros He Hexc Hcase.
  pose proof (scrape_item_broken excluded_codes kod entries w w' e l
                He Hcase) as Hitem.
  rewrite Hexc in Hitem. unfold at_log in *.
  split; [exact Hitem|]. unfold bind. by rewrite Hitem.
Qed.

(** X7 on the scripted browser: the click fails for the first code. *)
Lemma item_error_skips_witness :
  let w := {| opens := []; setups := []; selects := [];
              clicks := [Raise WebDriverError]; reads := [] |} in
  scrape_item [] (lit "AKM") [] (new_session w)
  = (Ok [], at_log calm [EvPrint (MsgItemError (lit "AKM"))]).
Proof.
  intros w.
  apply (item_error_skips [] (lit "AKM") [] [] (new_session w)
           WebDriverError calm); [discriminate|reflexivity|].
  right. left. exists w. split.
  - exists 0, w. split; [lia|]. split; reflexivity.
  - exists 0, w. split; [lia|]. split; reflexivity.
Defined.

(** X8. When a phase of an item raises an exception that is not an
    [Exception], the loop over the chunk stops there: the codes after
    it are not touched, nothing is printed, and the exception leaves the
    loop. *)
Theorem item_abort_stops_loop {W : Type} `{Browser W}
    (excluded_codes : list str) (kod : str) (rest : list str)
    (entries : list ders_entry) (s : session W) (e : exn) (w' : W) :
  is_Exception e = false ->
  item_breaks kod (world s) e w' ->
  scrape_loop excluded_codes (kod :: rest) entries s
  = (Raise e, at_log w' (log s)).
Proof.
  destruct s as [w l]. simpl. intros Hexc Hcase.
  assert (e <> StaleElementReferenceException) as He by (by intros ->).
  pose proof (scrape_item_broken excluded_codes kod entries w w' e l
                He Hcase) as Hitem.
  rewrite Hexc in Hitem. unfold at_log in *.
  unfold bind. by rewrite Hitem.
Qed.

(** X8 on the scripted browser: the table read of the first of two
    codes is interrupted. *)
Lemma item_abort_stops_loop_witness :
  let w := {| opens := []; setups := []; selects := []; clicks := [];
              reads := [Raise NonException] |} in
  scrape_loop [] [lit "AKM"; lit "BLG"] [] (new_session w)
  = (Raise NonException, at_log calm []).
Proof.
  intros w.
  apply (item_abort_stops_loop [] (lit "AKM") [lit "BLG"] []
           (new_session w) NonException calm); [reflexivity|].
  right. right. exists w, w. split; [|split].
  - exists 0, w. split; [lia|]. split; reflexivity.
  - exists 0, w. split; [lia|]. split; reflexivity.
  - exists 0, w. split; [lia|]. split; reflexivity.
Defined.

(** X9. None of the three retry loops lets a stale answer out: with any
    number of attempts, [select_course_code], the click loop and
    [collect_course_entries] never end with
    [StaleElementReferenceException]. *)
Theorem stale_never_escapes {W : Type} `{Browser W}
    (excluded_codes : list str) (kod : str) (retries : nat) (s : session W) :
  (select_course_code kod retries s).1
  <> Raise StaleElementReferenceException
  /\ (click_goster retries s).1 <> Raise StaleElementReferenceException
  /\ (collect_course_entries excluded_codes kod retries s).1
     <> Raise StaleElementReferenceException.
Proof.
  split; [apply select_never_stale|].
  split; [apply click_never_stale|apply collect_never_stale].
Qed.

(** ** Drivers and tables of a worker *)

Section WorkerMore.

Context {W : Type} `{Browser W}.
Variable excluded_codes : list str.

Lemma created_app evs1 evs2 :
  created (evs1 ++ evs2) = created evs1 + created evs2.
Proof. unfold created. by rewrite filter_app, length_app. Qed.

Lemma quitted_app evs1 evs2 :
  quitted (evs1 ++ evs2) = quitted evs1 + quitted evs2.
Proof. unfold quitted. by rewrite filter_app, length_app. Qed.

Lemma item_events_no_driver mid :
  Forall item_event mid -> created mid = 0 /\ quitted mid = 0.
Proof.
  unfold created, quitted.
  induction 1 as [|ev mid Hev _ [IH1 IH2]]; [done|].
  rewrite !filter_cons. by destruct ev.
Qed.

Lemma select_reads_none kod n : reads_at_most 0 (select_course_code kod n).
Proof.
  intros s. destruct (select_log kod n s) as (r & w' & ->). simpl. lia.
Qed.

Lemma click_reads_none n : reads_at_most 0 (click_goster n).
Proof.
  intros s. destruct (click_log n s) as (r & w' & ->). simpl. lia.
Qed.

Lemma collect_reads_one kod n :
  reads_at_most 1 (collect_course_entries excluded_codes kod n).
Proof.
  intros s.
  destruct (collect_outcome excluded_codes kod n s)
    as (w' & [(rows & ->)|[->|(e & ->)]]); simpl;
    rewrite ?tables_in_app, ?length_app; simpl; lia.
Qed.

Lemma scrape_item_reads_one kod entries :
  reads_at_most 1 (scrape_item excluded_codes kod entries).
Proof.
  intros s. unfold scrape_item, try_except_Exception, bind, print, emit, ret.
  pose proof (select_reads_none kod 3 s) as H1.
  destruct (select_course_code kod 3 s) as [[[|]|e1] s1]; cbn [negb snd] in *.
  2:{ simpl. rewrite tables_in_app, length_app. simpl. lia. }
  2:{ destruct (is_Exception e1); simpl;
        rewrite ?tables_in_app, ?length_app; simpl; lia. }
  pose proof (click_reads_none 3 s1) as H2.
  destruct (click_goster 3 s1) as [[[|]|e2] s2]; cbn [negb snd] in *.
  2:{ simpl. rewrite tables_in_app, length_app. simpl. lia. }
  2:{ destruct (is_Exception e2); simpl;
        rewrite ?tables_in_app, ?length_app; simpl; lia. }
  pose proof (collect_reads_one kod 3 s2) as H3.
  destruct (collect_course_entries excluded_codes kod 3 s2)
    as [[[|e es]|e3] s3]; cbn [snd] in *.
  - lia.
  - simpl. rewrite tables_in_app, length_app. simpl. lia.
  - destruct (is_Exception e3); simpl;
      rewrite ?tables_in_app, ?length_app; simpl; lia.
Qed.

Lemma scrape_loop_reads chunk entries :
  reads_at_most (length chunk) (scrape_loop excluded_codes chunk entries).
Proof.
  revert entries. induction chunk as [|kod rest IH]; intros entries s; simpl.
  - lia.
  - unfold bind.
    pose proof (scrape_item_reads_one kod entries s) as H1.
    destruct (scrape_item excluded_codes kod entries s) as [[entries'|e] s1];
      cbn [snd] in *; [|lia].
    pose proof (IH entries' s1). lia.
Qed.

End WorkerMore.

Lemma scrape_chunk_reads {W : Type} `{Browser W} (excluded_codes : list str)
    (chunk : list str) :
  reads_at_most (length chunk) (scrape_chunk excluded_codes chunk).
Proof.
  intros [w l]. destruct chunk as [|kod rest]; [simpl; lia|].
  unfold scrape_chunk, create_driver, try_finally, driver_quit, bind, call,
    emit. cbn [world log].
  destruct (open_driver w) as [[[]|e] w1]; cbn [world log fst snd]; [|lia].
  destruct (setup w1) as [[[]|e] w2]; cbn [world log fst snd].
  - pose proof (scrape_loop_reads excluded_codes (kod :: rest) []
                  {| world := w2; log := l ++ [EvCreate] |}) as Hloop.
    destruct (scrape_loop excluded_codes (kod :: rest) []
                {| world := w2; log := l ++ [EvCreate] |}) as [r s1].
    cbn [world log fst snd] in *.
    rewrite tables_in_app in *. rewrite length_app in *. simpl in *. lia.
  - rewrite !tables_in_app, !length_app. simpl. lia.
Qed.

(** X10. On every way through [scrape_chunk] the drivers are in
    balance: the worker quits as many drivers as it has created, at most
    one, and it creates none exactly when the chunk is empty or the
    creation itself fails. *)
Theorem drivers_balanced {W : Type} `{Browser W} (excluded_codes : list str)
    (chunk : list str) (s : session W) :
  exists evs,
    log (scrape_chunk excluded_codes chunk s).2 = log s ++ evs
    /\ created evs = quitted evs
    /\ created evs <= 1
    /\ (created evs = 0
        <-> chunk = [] \/ exists e w1, open_driver (world s) = (Raise e, w1)).
Proof.
  destruct (decide (chunk = [])) as [->|Hne].
  { exists []. rewrite app_nil_r. split; [done|]. split; [done|].
    split; [unfold created; simpl; lia|]. split; [by left|done]. }
  destruct (open_driver (world s)) as [[[]|e] w1] eqn:Hopen.
  2:{ exists []. rewrite (scrape_chunk_open_fails _ _ _ _ _ Hne Hopen).
      simpl. rewrite app_nil_r. split; [done|]. split; [done|].
      split; [unfold created; simpl; lia|]. split; [|done].
      right. by eauto. }
  assert (forall mid,
             Forall item_event mid ->
             created ([EvCreate] ++ mid ++ [EvQuit]) = 1
             /\ quitted ([EvCreate] ++ mid ++ [EvQuit]) = 1) as Hcount.
  { intros mid [Hc Hq]%item_events_no_driver.
    rewrite !created_app, !quitted_app, Hc, Hq. done. }
  assert (forall evs,
             created evs = 1 ->
             created evs = 0
             <-> chunk = [] \/ exists e w1', (Ok (), w1) = (@Raise unit e, w1'))
    as Hnever.
  { intros evs ->. split; [done|]. by intros [?|(e & w' & [=])]. }
  destruct (setup w1) as [[[]|e] w2] eqn:Hsetup.
  - destruct (scrape_chunk_setup_ok excluded_codes _ _ _ _ Hne Hopen Hsetup)
      as (r & s' & mid & -> & Hlog & Hmid & _).
    exists ([EvCreate] ++ mid ++ [EvQuit]). cbn [snd].
    destruct (Hcount mid Hmid) as [Hc Hq].
    split; [done|]. split; [by rewrite Hc, Hq|].
    split; [by rewrite Hc|]. by apply Hnever.
  - exists ([EvCreate] ++ [] ++ [EvQuit]).
    rewrite (scrape_chunk_setup_fails excluded_codes _ _ _ _ _
               Hne Hopen Hsetup).
    destruct (Hcount [] ltac:(constructor)) as [Hc Hq].
    split; [done|]. split; [by rewrite Hc, Hq|].
    split; [by rewrite Hc|]. by apply Hnever.
Qed.

Section CodeByCode.

Context {W : Type} `{Browser W}.
Variable excluded_codes : list str.

Lemma scrape_item_returns kod entries s entries1 s1 :
  scrape_item excluded_codes kod entries s = (Ok entries1, s1) ->
  exists mid,
    log s1 = log s ++ mid
    /\ entries1
       = entries ++ flat_map (table_entries excluded_codes) (tables_in mid)
    /\ length (tables_in mid) <= 1.
Proof.
  intros Hrun.
  destruct (scrape_item_outcome excluded_codes kod entries s)
    as (r & s2 & mid & Hrun' & Hlog & _ & Hr).
  rewrite Hrun in Hrun'. injection Hrun' as <- <-.
  exists mid. split; [done|]. split.
  - by destruct Hr as [[= ->]|[=]].
  - pose proof (scrape_item_reads_one excluded_codes kod entries s) as Hone.
    rewrite Hrun in Hone. simpl in Hone.
    rewrite Hlog, tables_in_app, length_app in Hone. lia.
Qed.

Lemma scrape_loop_item_by_item chunk entries s final s' :
  scrape_loop excluded_codes chunk entries s = (Ok final, s') ->
  item_by_item excluded_codes chunk entries s final s'.
Proof.
  revert entries s. induction chunk as [|kod rest IH]; intros entries s.
  - simpl. unfold ret. by intros [= <- <-].
  - cbn [scrape_loop item_by_item]. unfold bind.
    destruct (scrape_item excluded_codes kod entries s)
      as [[entries1|e] s1] eqn:Hitem; [|done].
    intros Hrest.
    destruct (scrape_item_returns _ _ _ _ _ Hitem) as (mid & Hlog & -> & Hone).
    exists mid, s1. split; [done|]. split; [done|]. split; [done|].
    by apply IH.
Qed.

(** A worker that returns went through its loop, between the creation
    of its driver and the quit. *)
Lemma scrape_chunk_item_by_item chunk s entries s' :
  scrape_chunk excluded_codes chunk s = (Ok entries, s') ->
  exists s0 s1 before after,
    log s0 = log s ++ before
    /\ tables_in before = []
    /\ item_by_item excluded_codes chunk [] s0 entries s1
    /\ log s' = log s1 ++ after
    /\ tables_in after = [].
Proof.
  destruct chunk as [|kod rest].
  { simpl. unfold ret. intros [= <- <-]. exists s, s, [], [].
    rewrite !app_nil_r. by repeat split. }
  destruct s as [w l].
  unfold scrape_chunk, create_driver, try_finally, driver_quit, bind, call,
    emit. cbn [world log].
  destruct (open_driver w) as [[[]|e] w1]; cbn [world log fst snd]; [|done].
  destruct (setup w1) as [[[]|e] w2]; cbn [world log fst snd]; [|done].
  destruct (scrape_loop excluded_codes (kod :: rest) []
              {| world := w2; log := l ++ [EvCreate] |})
    as [r s1] eqn:Hloop.
  cbn [world log fst snd]. intros [= -> <-].
  exists {| world := w2; log := l ++ [EvCreate] |}, s1, [EvCreate], [EvQuit].
  split; [done|]. split; [done|].
  split; [by apply scrape_loop_item_by_item|]. by split.
Qed.

End CodeByCode.

(** X11. A worker that returns has gone through its chunk code by
    code: the turn of each code read at most one table and appended
    exactly the records of the table it read, and no table is read
    before the first or after the last turn. So the batch returned is
    the records of the tables read, table after table in the order of
    reading, and there are at most as many tables as codes. *)
Theorem worker_batch_in_order {W : Type} `{Browser W}
    (excluded_codes : list str) (chunk : list str) (s s' : session W)
    (entries : list ders_entry) :
  scrape_chunk excluded_codes chunk s = (Ok entries, s') ->
  (exists s0 s1 before after,
      log s0 = log s ++ before
      /\ tables_in before = []
      /\ item_by_item excluded_codes chunk [] s0 entries s1
      /\ log s' = log s1 ++ after
      /\ tables_in after = [])
  /\ exists evs,
      log s' = log s ++ evs
      /\ entries = flat_map (table_entries excluded_codes) (tables_in evs)
      /\ length (tables_in evs) <= length chunk.
Proof.
  intros Hrun. split; [by apply scrape_chunk_item_by_item|].
  destruct (scrape_chunk_outcome excluded_codes chunk s)
    as (r & s1 & evs & Hrun' & Hlog & Hr).
  rewrite Hrun in Hrun'. injection Hrun' as <- <-.
  exists evs. split; [done|]. split.
  - by destruct Hr as [[= ->]|[[=]|[[e [=]] _]]].
  - pose proof (scrape_chunk_reads excluded_codes chunk s) as Hreads.
    rewrite Hrun in Hreads. simpl in Hreads.
    rewrite Hlog, tables_in_app, length_app in Hreads. lia.
Qed.

(** X11 on the scripted browser: two codes, two tables. *)
Lemma worker_batch_in_order_witness :
  let t1 := [header; sample_row "11" "AKM 101" "Statik"] in
  let t2 := [header; sample_row "10" "BLG 102" "Giris"] in
  let w := {| opens := []; setups := []; selects := []; clicks := [];
              reads := [Ok t1; Ok t2] |} in
  let batch := make_entry <$> [sample_row "11" "AKM 101" "Statik";
                               sample_row "10" "BLG 102" "Giris"] in
  (exists s0 s1,
      item_by_item (W := script) [] [lit "AKM"; lit "BLG"] [] s0 batch s1)
  /\ exists evs,
      log (scrape_chunk [] [lit "AKM"; lit "BLG"] (new_session w)).2 = evs
      /\ batch = flat_map (table_entries []) (tables_in evs).
Proof.
  intros t1 t2 w batch.
  destruct (worker_batch_in_order [] [lit "AKM"; lit "BLG"] (new_session w)
              (scrape_chunk [] [lit "AKM"; lit "BLG"] (new_session w)).2
              batch)
    as ((s0 & s1 & before & after & _ & _ & Hpath & _)
        & (evs & Hlog & Hentries & _)).
  - reflexivity.
  - split; [by exists s0, s1|].
    exists evs. split; [exact Hlog|exact Hentries].
Defined.

(** ** Chunks, continued *)

(** X12. For at least one item and at least one worker, with [n] the
    smaller of the two numbers and [L] the number of items: chunk [j]
    has [L / n] items, and one more when [j < L mod n]. The longer
    chunks are the first ones. *)
Theorem chunk_sizes {A : Type} (WORKER_COUNT : nat) (allItems : list A)
    (j : nat) (c : list A) :
  1 <= length allItems ->
  1 <= WORKER_COUNT ->
  partition_chunks WORKER_COUNT allItems !! j = Some c ->
  let n := min WORKER_COUNT (length allItems) in
  length c
  = length allItems / n + (if decide (j < length allItems mod n) then 1 else 0).
Proof.
  intros HL HW Hc n.
  destruct (partition_chunks_dealt WORKER_COUNT allItems HL HW)
    as (q0 & r0 & Hlen & Hr & Hn & Hchunk & _).
  fold n in Hlen, Hr, Hn, Hchunk.
  destruct (Hchunk j c Hc) as [-> _].
  assert (length allItems / n = q0) as ->.
  { symmetry. apply (Nat.div_unique _ n q0 r0); lia. }
  assert (length allItems mod n = r0) as ->.
  { symmetry. apply (Nat.mod_unique _ n q0 r0); lia. }
  done.
Qed.

(** X12 on eight items and three workers: the last chunk has two. *)
Lemma chunk_sizes_witness : length [2; 5] = 8 / 3 + 0.
Proof.
  apply (chunk_sizes 3 [0; 1; 2; 3; 4; 5; 6; 7] 2 [2; 5]);
    [simpl; lia | lia | reflexivity].
Defined.

(** X13. With at least as many workers as items every item gets a
    chunk of its own, in the order of the items. *)
Theorem one_item_per_worker {A : Type} (WORKER_COUNT : nat)
    (allItems : list A) :
  1 <= length allItems ->
  length allItems <= WORKER_COUNT ->
  partition_chunks WORKER_COUNT allItems = (fun x => [x]) <$> allItems.
Proof.
  intros HL HW.
  destruct (partition_chunks_dealt WORKER_COUNT allItems HL ltac:(lia))
    as (q0 & r0 & Hlen & Hr & Hn & Hchunk & _).
  rewrite Nat.min_r in Hlen, Hr, Hn, Hchunk by done.
  assert (q0 = 1 /\ r0 = 0) as [-> ->].
  { destruct q0 as [|[|q0]]; [lia|lia|nia]. }
  apply list_eq. intros j. rewrite list_lookup_fmap.
  destruct (partition_chunks WORKER_COUNT allItems !! j) as [c|] eqn:Hc.
  - destruct (Hchunk j c Hc) as [Hlc Hq].
    rewrite decide_False in Hlc by lia.
    specialize (Hq 0). simpl in Hq. rewrite <- Hq.
    destruct c as [|x [|y c]]; simpl in *; try lia. done.
  - apply lookup_ge_None in Hc. rewrite Hn in Hc.
    by rewrite (lookup_ge_None_2 allItems j).
Qed.

(** X13 on two items and five workers. *)
Lemma one_item_per_worker_witness :
  partition_chunks 5 [lit "AKM"; lit "BLG"] = [[lit "AKM"]; [lit "BLG"]].
Proof.
  apply (one_item_per_worker 5 [lit "AKM"; lit "BLG"]); simpl; lia.
Defined.

(** ** The sort, continued *)

(** X14. The rows written are ordered by Kod first: a written record
    whose Kod is smaller as a text stands before any written record with
    a greater Kod, whatever their CRNs. *)
Theorem kod_orders_first (all_entries : list ders_entry) (i j : nat)
    (e1 e2 : ders_entry) :
  written_rows all_entries !! i = Some e1 ->
  written_rows all_entries !! j = Some e2 ->
  Text.ltb (Kod e1) (Kod e2) = true ->
  i < j.
Proof.
  rewrite written_rows_sort. intros Hi Hj Hkod.
  assert (key_ltb (sort_key e1) (sort_key e2) = true) as Hlt.
  { unfold key_ltb, sort_key, Text.ltb in *. simpl.
    by destruct (Text.compare (Kod e1) (Kod e2)). }
  destruct (Nat.lt_trichotomy i j) as [Hij|[->|Hji]]; [done|..].
  - rewrite Hi in Hj. injection Hj as ->.
    apply key_lt_ne in Hlt. done.
  - pose proof (strongly_sorted_lookup key_le _ j i e2 e1
                  (sort_by_key_sorted all_entries) Hji Hj Hi) as Hle.
    unfold key_le in Hle. congruence.
Qed.

(** X14 on two records: "AKM 101" with CRN "9" and "BLG 102" with
    CRN "1". *)
Lemma kod_orders_first_witness : 0 < 1.
Proof.
  apply (kod_orders_first
           [make_entry (sample_row "1" "BLG 102" "Giris");
            make_entry (sample_row "9" "AKM 101" "Statik")]
           0 1
           (make_entry (sample_row "9" "AKM 101" "Statik"))
           (make_entry (sample_row "1" "BLG 102" "Giris")));
    reflexivity.
Defined.

(** X15. Records that are already in the order of (Kod, CRN) are
    written as they are; so sorting what was written changes nothing. *)
Theorem sorted_rows_unchanged (all_entries : list ders_entry) :
  (StronglySorted key_le all_entries ->
   written_rows all_entries = all_entries)
  /\ written_rows (written_rows all_entries) = written_rows all_entries.
Proof.
  assert (forall l, StronglySorted key_le l -> written_rows l = l) as Hfix.
  { intros l Hl. rewrite written_rows_sort.
    apply stable_sort_unique; [apply sort_by_key_sorted|done|].
    intros k. apply sort_by_key_stable. }
  split; [apply Hfix|].
  apply Hfix. rewrite written_rows_sort. apply sort_by_key_sorted.
Qed.

(** X15 on two records in order. *)
Lemma sorted_rows_unchanged_witness :
  let a := make_entry (sample_row "9" "AKM 101" "Statik") in
  let b := make_entry (sample_row "1" "BLG 102" "Giris") in
  written_rows [a; b] = [a; b].
Proof.
  intros a b. apply (proj1 (sorted_rows_unchanged [a; b])).
  repeat constructor.
Defined.

(** ** Failing workers in [main] *)

(** X16. In the parallel branch a worker that ends with an [Exception]
    does not stop [main]: as long as every worker returned or ended with
    an [Exception], [main] returns, and the rows written are the records
    of the batches of the workers that returned. *)
Theorem parallel_failures_isolated {W : Type} `{Browser W}
    (excluded_codes : list str) (WORKER_COUNT : nat) (worlds : nat -> W)
    (ders_kodlari : list str) (order : list nat) :
  let ran := workers_of excluded_codes WORKER_COUNT worlds ders_kodlari in
  1 < WORKER_COUNT ->
  Forall caught (futures_of ran) ->
  completion_order order ran ->
  exists rows,
    main excluded_codes WORKER_COUNT worlds ders_kodlari order = Ok rows
    /\ rows ≡ₚ concat (batch_of <$> futures_of ran).
Proof.
  intros ran HW Hcaught Horder. subst ran.
  unfold main, collect_all, workers_of, completion_order in *.
  destruct ders_kodlari as [|kod rest].
  { exists []. by split. }
  destruct (Nat.leb_spec WORKER_COUNT 1) as [?|_]; [lia|].
  set (ran := submit_all excluded_codes worlds
                (partition_chunks WORKER_COUNT (kod :: rest))) in *.
  assert (as_completed order (futures_of ran) ≡ₚ futures_of ran) as Hperm.
  { apply as_completed_perm. unfold futures_of. by rewrite length_fmap. }
  rewrite gather_caught by (by rewrite Hperm).
  eexists. split; [done|]. simpl.
  rewrite written_rows_sort, sort_by_key_perm. by apply concat_fmap_perm.
Qed.

(** X16 on two workers, the first of which cannot open its driver. *)
Lemma parallel_failures_isolated_witness :
  let bad := {| opens := [Raise WebDriverError]; setups := []; selects := [];
                clicks := []; reads := [] |} in
  let good := {| opens := []; setups := []; selects := []; clicks := [];
                 reads := [Ok [header; sample_row "5" "BLG 102" "Giris"]] |} in
  let worlds i := match i with 0 => bad | _ => good end in
  exists rows,
    main [] 2 worlds [lit "AKM"; lit "BLG"] [1; 0] = Ok rows
    /\ rows ≡ₚ [make_entry (sample_row "5" "BLG 102" "Giris")].
Proof.
  intros bad good worlds.
  destruct (parallel_failures_isolated [] 2 worlds [lit "AKM"; lit "BLG"]
              [1; 0]) as (rows & Hmain & Hrows).
  - lia.
  - repeat constructor.
  - apply Permutation_swap.
  - exists rows. split; [exact Hmain|exact Hrows].
Defined.

(** X17. In the branch of the single worker nothing catches the worker:
    when its driver cannot be created, or its set-up fails, [main] ends
    with that exception and writes nothing. *)
Theorem single_worker_failure_escapes {W : Type} `{Browser W}
    (excluded_codes : list str) (WORKER_COUNT : nat) (worlds : nat -> W)
    (ders_kodlari : list str) (order : list nat) (e : exn) :
  WORKER_COUNT <= 1 ->
  ders_kodlari <> [] ->
  ((exists w1, open_driver (worlds 0) = (Raise e, w1))
   \/ (exists w1 w2,
         open_driver (worlds 0) = (Ok tt, w1)
         /\ setup w1 = (Raise e, w2))) ->
  main excluded_codes WORKER_COUNT worlds ders_kodlari order = Raise e.
Proof.
  intros HW Hne Hfail. unfold main, collect_all, run_worker.
  destruct ders_kodlari as [|kod rest]; [done|].
  destruct (Nat.leb_spec WORKER_COUNT 1) as [_|?]; [|lia].
  destruct Hfail as [(w1 & Hopen)|(w1 & w2 & Hopen & Hsetup)].
  - by rewrite (scrape_chunk_open_fails excluded_codes (kod :: rest)
                  (new_session (worlds 0)) e w1).
  - by rewrite (scrape_chunk_setup_fails excluded_codes (kod :: rest)
                  (new_session (worlds 0)) w1 e w2).
Qed.

(** X17 on the scripted browser whose set-up fails. *)
Lemma single_worker_failure_escapes_witness :
  let w := {| opens := []; setups := [Raise WebDriverError]; selects := [];
              clicks := []; reads := [] |} in
  main [] 1 (fun _ => w) [lit "AKM"] [] = Raise WebDriverError.
Proof.
  intros w.
  apply (single_worker_failure_escapes [] 1 (fun _ => w) [lit "AKM"] []
           WebDriverError); [lia|discriminate|].
  right. exists w, calm. split; reflexivity.
Defined.

(** ** Discovery *)

Section DiscoveryFacts.

Context {W : Type} `{Catalogue W}.

Lemma get_codes_open_fails s e w1 :
  open_driver (world s) = (Raise e, w1) ->
  get_all_course_codes s = (Raise e, at_log w1 (log s)).
Proof.
  intros Hopen. unfold get_all_course_codes, create_driver, bind, call.
  by rewrite Hopen.
Qed.

Lemma get_codes_setup_fails s w1 e w2 :
  open_driver (world s) = (Ok tt, w1) ->
  setup w1 = (Raise e, w2) ->
  get_all_course_codes s
  = (Raise e, at_log (quit w2) (log s ++ [EvCreate; EvQuit])).
Proof.
  intros Hopen Hsetup.
  unfold get_all_course_codes, create_driver, try_finally, driver_quit,
    bind, call, emit.
  rewrite Hopen. simpl. rewrite Hsetup. simpl. by rewrite <- app_assoc.
Qed.

Lemma get_codes_listing_fails s w1 w2 e w3 :
  open_driver (world s) = (Ok tt, w1) ->
  setup w1 = (Ok tt, w2) ->
  read_options w2 = (Raise e, w3) ->
  get_all_course_codes s
  = (Raise e, at_log (quit w3) (log s ++ [EvCreate; EvQuit])).
Proof.
  intros Hopen Hsetup Hread.
  unfold get_all_course_codes, create_driver, try_finally, driver_quit,
    bind, call, emit.
  rewrite Hopen. simpl. rewrite Hsetup. simpl. rewrite Hread. simpl.
  by rewrite <- app_assoc.
Qed.

Lemma get_codes_listed s w1 w2 options w3 :
  open_driver (world s) = (Ok tt, w1) ->
  setup w1 = (Ok tt, w2) ->
  read_options w2 = (Ok options, w3) ->
  get_all_course_codes s
  = (Ok ((fun option => strip (option_text option))
           <$> filter (fun option => has_value option) options),
     at_log (quit w3) (log s ++ [EvCreate; EvQuit])).
Proof.
  intros Hopen Hsetup Hread.
  unfold get_all_course_codes, create_driver, try_finally, driver_quit,
    bind, call, emit, ret.
  rewrite Hopen. simpl. rewrite Hsetup. simpl. rewrite Hread. simpl.
  by rewrite <- app_assoc.
Qed.

Lemma strip_strip s : strip (strip s) = strip s.
Proof. destruct (strip_clean s). by apply strip_id. Qed.

End DiscoveryFacts.

(** X18. [get_all_course_codes] quits the driver it created exactly
    once, whether the set-up or the reading of the drop-down fails or
    not, and a failure of either is raised again after the quit. When
    the driver cannot be created there is nothing to quit. *)
Theorem discovery_driver {W : Type} `{Catalogue W} (s : session W) :
  let out := get_all_course_codes s in
  (forall e w1,
      open_driver (world s) = (Raise e, w1) ->
      out = (Raise e, at_log w1 (log s)))
  /\ (forall w1,
        open_driver (world s) = (Ok tt, w1) ->
        log out.2 = log s ++ [EvCreate; EvQuit]
        /\ (forall e w2, setup w1 = (Raise e, w2) -> out.1 = Raise e)
        /\ (forall w2 e w3,
              setup w1 = (Ok tt, w2) ->
              read_options w2 = (Raise e, w3) ->
              out.1 = Raise e)).
Proof.
  cbv zeta. split.
  - intros e w1 Hopen. by apply get_codes_open_fails.
  - intros w1 Hopen. split; [|split].
    + destruct (setup w1) as [[[]|e] w2] eqn:Hsetup.
      * destruct (read_options w2) as [[options|e] w3] eqn:Hread.
        -- by rewrite (get_codes_listed _ _ _ _ _ Hopen Hsetup Hread).
        -- by rewrite (get_codes_listing_fails _ _ _ _ _ Hopen Hsetup Hread).
      * by rewrite (get_codes_setup_fails _ _ _ _ Hopen Hsetup).
    + intros e w2 Hsetup.
      by rewrite (get_codes_setup_fails _ _ _ _ Hopen Hsetup).
    + intros w2 e w3 Hsetup Hread.
      by rewrite (get_codes_listing_fails _ _ _ _ _ Hopen Hsetup Hread).
Qed.

(** X18 on a scripted browser whose drop-down cannot be read. *)
Lemma discovery_driver_witness :
  let w := {| page := calm; listings := [Raise WebDriverError] |} in
  log (get_all_course_codes (new_session w)).2 = [EvCreate; EvQuit]
  /\ (get_all_course_codes (new_session w)).1 = Raise WebDriverError.
Proof.
  intros w.
  assert (open_driver (world (new_session w)) = (Ok tt, w)) as Hopen
    by reflexivity.
  destruct (proj2 (discovery_driver (new_session w)) w Hopen)
    as (Hlog & _ & Hfail).
  split; [exact Hlog|].
  apply (Hfail w WebDriverError {| page := calm; listings := [] |});
    reflexivity.
Defined.

(** X19. Every code that [get_all_course_codes] returns is stripped: it
    has no white space at its ends. There is one code for each option
    with a non-empty [value], so a code can be the empty text. *)
Theorem discovered_codes_stripped {W : Type} `{Catalogue W}
    (s s' : session W) (codes : list str) :
  get_all_course_codes s = (Ok codes, s') ->
  Forall (fun c => strip c = c /\ starts_clean c /\ ends_clean c) codes.
Proof.
  intros Hrun.
  destruct (open_driver (world s)) as [[[]|e] w1] eqn:Hopen.
  2:{ by rewrite (get_codes_open_fails _ _ _ Hopen) in Hrun. }
  destruct (setup w1) as [[[]|e] w2] eqn:Hsetup.
  2:{ by rewrite (get_codes_setup_fails _ _ _ _ Hopen Hsetup) in Hrun. }
  destruct (read_options w2) as [[options|e] w3] eqn:Hread.
  2:{ by rewrite (get_codes_listing_fails _ _ _ _ _ Hopen Hsetup Hread)
        in Hrun. }
  rewrite (get_codes_listed _ _ _ _ _ Hopen Hsetup Hread) in Hrun.
  injection Hrun as <- _. apply Forall_fmap, Forall_forall.
  intros option _. simpl. destruct (strip_clean (option_text option)).
  split; [apply strip_strip|done].
Qed.

(** X19 on a drop-down with a placeholder without value, a padded code
    and an option with a value but a blank text. *)
Lemma discovered_codes_stripped_witness :
  let w := {| page := calm;
              listings := [Ok [choice "Ders Kodu Seciniz" "";
                               choice "  AKM " "3";
                               choice "  " "7"]] |} in
  (get_all_course_codes (new_session w)).1 = Ok [lit "AKM"; []]
  /\ Forall (fun c => strip c = c /\ starts_clean c /\ ends_clean c)
       [lit "AKM"; []].
Proof.
  intros w. split; [reflexivity|].
  apply (discovered_codes_stripped (new_session w)
           (get_all_course_codes (new_session w)).2).
  reflexivity.
Defined.

(** X20. When no option of the drop-down has a value, [main] starts no
    worker and writes nothing, whatever the number of workers. *)
Theorem nothing_discovered {W : Type} `{Catalogue W}
    (excluded_codes : list str) (WORKER_COUNT : nat) (discovery_world : W)
    (worlds : nat -> W) (order : list nat) (w1 w2 w3 : W)
    (options : list option_element) :
  open_driver discovery_world = (Ok tt, w1) ->
  setup w1 = (Ok tt, w2) ->
  read_options w2 = (Ok options, w3) ->
  Forall (fun option => has_value option = false) options ->
  (main_from_start excluded_codes WORKER_COUNT discovery_world worlds order).1
  = Ok []
  /\ workers_of excluded_codes WORKER_COUNT worlds
       ((fun option => strip (option_text option))
          <$> filter (fun option => has_value option) options) = [].
Proof.
  intros Hopen Hsetup Hread Hnone.
  assert (filter (fun option => has_value option) options = []) as Hfilter.
  { clear Hread. induction Hnone as [|o options Ho _ IH]; [done|].
    rewrite filter_cons, IH. case_decide as Hv; [|done].
    by rewrite Ho in Hv. }
  unfold main_from_start.
  rewrite (get_codes_listed (new_session discovery_world) _ _ _ _
             Hopen Hsetup Hread).
  by rewrite Hfilter.
Qed.

(** X20 on a drop-down that holds only its placeholder. *)
Lemma nothing_discovered_witness :
  let w := {| page := calm;
              listings := [Ok [choice "Ders Kodu Seciniz" ""]] |} in
  (main_from_start [] 5 w (fun _ => w) []).1 = Ok [].
Proof.
  intros w.
  apply (nothing_discovered [] 5 w (fun _ => w) [] w w
           {| page := calm; listings := [] |}
           [choice "Ders Kodu Seciniz" ""]); try reflexivity.
  repeat constructor.
Defined.

(** X21. When the discovery fails (its driver cannot be created, its
    set-up fails, or the drop-down cannot be read) [main] ends with that
    exception: no worker is started and nothing is written. *)
Theorem discovery_failure_ends_main {W : Type} `{Catalogue W}
    (excluded_codes : list str) (WORKER_COUNT : nat) (discovery_world : W)
    (worlds : nat -> W) (order : list nat) (e : exn) :
  ((exists w1, open_driver discovery_world = (Raise e, w1))
   \/ (exists w1 w2,
         open_driver discovery_world = (Ok tt, w1)
         /\ setup w1 = (Raise e, w2))
   \/ (exists w1 w2 w3,
         open_driver discovery_world = (Ok tt, w1)
         /\ setup w1 = (Ok tt, w2)
         /\ read_options w2 = (Raise e, w3))) ->
  (main_from_start excluded_codes WORKER_COUNT discovery_world worlds order).1
  = Raise e.
Proof.
  intros Hfail. unfold main_from_start.
  destruct Hfail as [(w1 & Hopen)
                    |[(w1 & w2 & Hopen & Hsetup)
                     |(w1 & w2 & w3 & Hopen & Hsetup & Hread)]].
  - by rewrite (get_codes_open_fails (new_session discovery_world) _ _ Hopen).
  - by rewrite (get_codes_setup_fails (new_session discovery_world)
                  _ _ _ Hopen Hsetup).
  - by rewrite (get_codes_listing_fails (new_session discovery_world)
                  _ _ _ _ Hopen Hsetup Hread).
Qed.

(** X21 on a scripted browser whose drop-down cannot be read. *)
Lemma discovery_failure_ends_main_witness :
  let w := {| page := calm; listings := [Raise WebDriverError] |} in
  (main_from_start [] 5 w (fun _ => w) []).1 = Raise WebDriverError.
Proof.
  intros w.
  apply (discovery_failure_ends_main [] 5 w (fun _ => w) [] WebDriverError).
  right. right. exists w, w, {| page := calm; listings := [] |}.
  split; [|split]; reflexivity.
Defined.

(** ** Workers and chunks *)

Lemma filter_all {A} (P : A -> Prop) `{forall x, Decision (P x)} (l : list A) :
  Forall P l -> filter P l = l.
Proof.
  induction 1 as [|x l Hx _ IH]; [done|].
  by rewrite filter_cons, decide_True, IH.
Qed.

(** X22. In the parallel branch, with at least one code and a worker
    count of at least two, the guard on empty chunks drops nothing: the
    workers started are numbered 0, 1, ..., n - 1 for [n] the smaller of
    the worker count and the number of codes, and worker [i] works on
    chunk [i]. *)
Theorem every_chunk_gets_a_worker {W : Type} `{Browser W}
    (excluded_codes : list str) (WORKER_COUNT : nat) (worlds : nat -> W)
    (ders_kodlari : list str) :
  1 <= length ders_kodlari ->
  2 <= WORKER_COUNT ->
  let chunks := partition_chunks WORKER_COUNT ders_kodlari in
  workers_of excluded_codes WORKER_COUNT worlds ders_kodlari
  = imap (fun i chunk => (i, run_worker excluded_codes worlds i chunk)) chunks
  /\ length (workers_of excluded_codes WORKER_COUNT worlds ders_kodlari)
     = min WORKER_COUNT (length ders_kodlari).
Proof.
  intros HL HW chunks.
  destruct (partition_chunks_dealt WORKER_COUNT ders_kodlari HL ltac:(lia))
    as (q0 & r0 & Hlen & Hr & Hn & Hchunk & _).
  fold chunks in Hn, Hchunk.
  assert (1 <= q0) as Hq0 by nia.
  assert (workers_of excluded_codes WORKER_COUNT worlds ders_kodlari
          = imap (fun i chunk =>
                    (i, run_worker excluded_codes worlds i chunk)) chunks)
    as Heq.
  { unfold workers_of.
    destruct ders_kodlari as [|kod rest]; [simpl in HL; lia|].
    destruct (Nat.leb_spec WORKER_COUNT 1) as [?|_]; [lia|].
    unfold submit_all, enumerate. fold chunks.
    rewrite filter_all.
    - by rewrite fmap_imap.
    - apply Forall_forall. intros [i c] Hin.
      apply list_elem_of_lookup in Hin as [k Hk].
      rewrite list_lookup_imap in Hk.
      destruct (chunks !! k) as [c'|] eqn:Hc; [|done].
      injection Hk as <- <-. destruct (Hchunk k c' Hc) as [Hl _].
      simpl. intros ->. simpl in Hl. lia. }
  split; [exact Heq|]. by rewrite Heq, length_imap.
Qed.

(** X22 on three codes and five workers. *)
Lemma every_chunk_gets_a_worker_witness :
  length (workers_of [] 5 (fun _ => calm) [lit "AKM"; lit "BLG"; lit "FIZ"])
  = 3.
Proof.
  apply (every_chunk_gets_a_worker [] 5 (fun _ => calm)
           [lit "AKM"; lit "BLG"; lit "FIZ"]); simpl; lia.
Defined.
